(** * Replacement policies of the cache simulator (src/replacement_policies.c)

    A shallow embedding of the three replacement policies (LRU,
    LRU_PREFER_CLEAN and RAND) and of their constructors and cleanup
    functions, followed by the properties of the design document that
    concern them.

    Conventions of the embedding.
    - A [uint32_t] is a [Z] in [0, 2^32); arithmetic on it wraps with
      [uint32]; the conversions between [uint32_t] and [int] that the C
      code performs implicitly are [int_of_uint32] and [uint32_of_int].
    - A C array is a [list]; reading or writing outside of it is undefined
      behaviour, which the embedding reports as [None].
    - A function that works on the policy through its pointer is a
      computation in the monad [M], a state monad over the pointee with
      [None] for undefined behaviour. *)

From Stdlib Require Import ZArith Lia.
From stdpp Require Import base decidable option numbers list list_numbers.

Local Open Scope Z_scope.

(* ===================================================================== *)
(** ** C integers *)
(* ===================================================================== *)

Definition UINT32_MODULUS : Z := 2 ^ 32.
Definition INT_MAX : Z := 2 ^ 31 - 1.

(** The value of a [uint32_t] expression whose mathematical value is [x]. *)
Definition uint32 (x : Z) : Z := x mod UINT32_MODULUS.

(** [int n = u] for a [uint32_t u]: the value is kept when it fits and is
    reduced modulo 2^32 into the range of [int] otherwise. *)
Definition int_of_uint32 (u : Z) : Z :=
  if decide (u <= INT_MAX) then u else u - UINT32_MODULUS.

(** [(uint32_t) n] for an [int n]. *)
Definition uint32_of_int (n : Z) : Z := n mod UINT32_MODULUS.

(** [a[i]] on an array: [None] outside of the array. *)
Definition index {A : Type} (a : list A) (i : Z) : option A :=
  if decide (0 <= i) then a !! Z.to_nat i else None.

(* ===================================================================== *)
(** ** Data model *)
(* ===================================================================== *)

(** Modelled from the spec: the status enumeration of memory_system.h, which
    is not among the sources.  It "includes at least INVALID and EXCLUSIVE";
    every other status counts as dirty, and [DIRTY k] stands for the k-th
    of them. *)
Inductive cache_line_status : Type :=
  | INVALID
  | EXCLUSIVE
  | DIRTY (k : nat).

#[global] Instance cache_line_status_eq_dec : EqDecision cache_line_status.
Proof. solve_decision. Defined.

(** [struct cache_line]: the fields the policies read. *)
Record cache_line : Type := mk_cache_line {
  tag : Z;
  status : cache_line_status
}.

(** [struct cache_system]: the fields the policies read.  [cache_lines] is
    the flat array of all lines, set after set. *)
Record cache_system : Type := mk_cache_system {
  cs_associativity : Z;
  cache_lines : list cache_line
}.

(** [struct lru_metadata]; [order] is the array of per-set arrays. *)
Record lru_metadata : Type := mk_lru_metadata {
  num_sets : Z;
  associativity : Z;
  order : list (list Z)
}.

(** [struct rand_metadata]. *)
Record rand_metadata : Type := mk_rand_metadata {
  rand_num_sets : Z;
  rand_associativity : Z
}.

(** [struct replacement_policy]: [data] is the [void *] to the metadata,
    [None] when it is [NULL].  The three function pointers are fixed by the
    constructor and are called directly here. *)
Record replacement_policy (D : Type) : Type := mk_replacement_policy {
  data : option D
}.
Arguments mk_replacement_policy {D} _.
Arguments data {D} _.

(* ===================================================================== *)
(** ** The monad of C computations on a pointee *)
(* ===================================================================== *)

Definition M (S A : Type) : Type := S -> option (A * S).

Definition ret {S A : Type} (a : A) : M S A := fun s => Some (a, s).

Definition bind {S A B : Type} (m : M S A) (k : A -> M S B) : M S B :=
  fun s => match m s with
           | Some (a, s') => k a s'
           | None => None
           end.

(** Undefined behaviour. *)
Definition undefined {S A : Type} : M S A := fun _ => None.

(** A read that does not concern the state. *)
Definition lift {S A : Type} (o : option A) : M S A :=
  fun s => match o with
           | Some a => Some (a, s)
           | None => None
           end.

Declare Scope c_scope.
Delimit Scope c_scope with C.
Notation "'do' x <- m ; k" := (bind m (fun x => k))
  (at level 10, x name, m at level 100, k at level 200,
   format "'[v' 'do'  x  <-  m ; '/' k ']'") : c_scope.
Notation "m ;; k" := (bind m (fun _ => k))
  (at level 100, k at level 200, right associativity) : c_scope.
Local Open Scope c_scope.

Abbreviation lru_policy := (replacement_policy lru_metadata).

(** [metadata->associativity] *)
Definition load_associativity : M lru_policy Z :=
  fun rp => match data rp with
            | Some md => Some (associativity md, rp)
            | None => None
            end.

(** [metadata->order[set_idx][i]] as an rvalue *)
Definition load_order (set_idx i : Z) : M lru_policy Z :=
  fun rp => match data rp with
            | Some md =>
                match index (order md) set_idx with
                | Some row =>
                    match index row i with
                    | Some v => Some (v, rp)
                    | None => None
                    end
                | None => None
                end
            | None => None
            end.

(** [metadata->order[set_idx][i] = v] *)
Definition store_order (set_idx i v : Z) : M lru_policy unit :=
  fun rp => match data rp with
            | Some md =>
                match index (order md) set_idx with
                | Some row =>
                    match index row i with
                    | Some _ =>
                        Some (tt, mk_replacement_policy (Some
                          (mk_lru_metadata (num_sets md) (associativity md)
                             (<[Z.to_nat set_idx := <[Z.to_nat i := v]> row]>
                                (order md)))))
                    | None => None
                    end
                | None => None
                end
            | None => None
            end.

(* ===================================================================== *)
(** ** LRU *)
(* ===================================================================== *)

(** [lru_eviction_index]: the entry at the tail of the set's order. *)
Definition lru_eviction_index (cs : cache_system) (set_idx : Z)
  : M lru_policy Z :=
  do assoc <- load_associativity;
  load_order set_idx (uint32 (assoc - 1)).

(** The line test of the first loop of [lru_cache_access]. *)
Definition line_matches (t : Z) (cl : cache_line) : bool :=
  bool_decide (tag cl = t) && negb (bool_decide (status cl = INVALID)).

(** First loop of [lru_cache_access], from index [i] with [n] iterations
    left: the value of [accessed_line_idx] when the loop is left. *)
Fixpoint find_accessed_line (cs : cache_system) (set_start t : Z)
    (i : Z) (n : nat) : option Z :=
  match n with
  | O => Some (-1)
  | S n' =>
      match index (cache_lines cs) (set_start + i) with
      | Some cl =>
          if line_matches t cl then Some (int_of_uint32 i)
          else find_accessed_line cs set_start t (i + 1) n'
      | None => None
      end
  end.

(** Second loop of [lru_cache_access]: the value of [p] when it is left. *)
Fixpoint find_position (set_idx accessed_line_idx : Z) (i : Z) (n : nat)
  : M lru_policy Z :=
  match n with
  | O => ret (-1)
  | S n' =>
      do v <- load_order set_idx i;
      if decide (v = uint32_of_int accessed_line_idx)
      then ret (int_of_uint32 i)
      else find_position set_idx accessed_line_idx (i + 1) n'
  end.

(** Third loop of [lru_cache_access], [for (int i = p; i > 0; i--)], with
    [n] iterations left. *)
Fixpoint shift_order (set_idx : Z) (i : Z) (n : nat) : M lru_policy unit :=
  match n with
  | O => ret tt
  | S n' =>
      do v <- load_order set_idx (i - 1);
      store_order set_idx i v;;
      shift_order set_idx (i - 1) n'
  end.

Definition lru_cache_access (cs : cache_system) (set_idx t : Z)
  : M lru_policy unit :=
  let set_start := uint32 (set_idx * cs_associativity cs) in
  do accessed_line_idx <-
    lift (find_accessed_line cs set_start t 0
            (Z.to_nat (cs_associativity cs)));
  if decide (accessed_line_idx < 0) then ret tt
  else
    do assoc <- load_associativity;
    do p <- find_position set_idx accessed_line_idx 0 (Z.to_nat assoc);
    if decide (p < 0) then ret tt
    else
      shift_order set_idx p (Z.to_nat p);;
      store_order set_idx 0 (uint32_of_int accessed_line_idx).

(** [lru_replacement_policy_new], on the executions in which every [malloc]
    returns memory.  [policy_ok] and [metadata_ok] say whether the two
    allocations whose result the code tests succeed; the function returns
    [NULL], here [None], when one of them fails. *)
Fixpoint init_order_row (i : Z) (n : nat) : list Z :=
  match n with
  | O => []
  | S n' => i :: init_order_row (i + 1) n'
  end.

Fixpoint init_order (associativity : Z) (n : nat) : list (list Z) :=
  match n with
  | O => []
  | S n' => init_order_row 0 (Z.to_nat associativity)
              :: init_order associativity n'
  end.

Definition lru_replacement_policy_new (policy_ok metadata_ok : bool)
    (sets associativity : Z) : option lru_policy :=
  if negb policy_ok then None
  else if negb metadata_ok then None
  else Some (mk_replacement_policy (Some
         (mk_lru_metadata sets associativity
            (init_order associativity (Z.to_nat sets))))).

(** What [free] is called on. *)
Inductive block : Type :=
  | OrderRow (set_idx : Z)
  | OrderTable
  | Metadata.

(** The loop of [lru_replacement_policy_cleanup]: the rows it frees. *)
Fixpoint free_order_rows (md : lru_metadata) (i : Z) (n : nat)
  : option (list block) :=
  match n with
  | O => Some []
  | S n' =>
      match index (order md) i with
      | Some _ =>
          match free_order_rows md (i + 1) n' with
          | Some freed => Some (OrderRow i :: freed)
          | None => None
          end
      | None => None
      end
  end.

(** [lru_replacement_policy_cleanup].  The argument is the pointer to the
    policy, [None] when it is [NULL]; the result is the list of the blocks
    handed to [free], in order, and the policy afterwards. *)
Definition lru_replacement_policy_cleanup
    (replacement_policy : option lru_policy)
  : option (list block * option lru_policy) :=
  match replacement_policy with
  | None => None
  | Some rp =>
      match data rp with
      | None => Some ([], Some rp)
      | Some metadata =>
          match free_order_rows metadata 0 (Z.to_nat (num_sets metadata)) with
          | Some freed =>
              Some (freed ++ [OrderTable; Metadata],
                    Some (mk_replacement_policy None))
          | None => None
          end
      end
  end.

(* ===================================================================== *)
(** ** LRU_PREFER_CLEAN *)
(* ===================================================================== *)

(** The loop of [lru_prefer_clean_eviction_index],
    [for (int i = assoc - 1; i >= 0; i--)], with [n] iterations left:
    [Some] of the index the loop returns, [None] when the loop ends. *)
Fixpoint find_clean_line (cs : cache_system) (set_idx assoc : Z)
    (i : Z) (n : nat) : M lru_policy (option Z) :=
  match n with
  | O => ret None
  | S n' =>
      do line_idx_in_set <- load_order set_idx i;
      let global_idx := uint32 (uint32 (set_idx * assoc) + line_idx_in_set) in
      do cl <- lift (index (cache_lines cs) global_idx);
      if decide (status cl = EXCLUSIVE) then ret (Some line_idx_in_set)
      else find_clean_line cs set_idx assoc (i - 1) n'
  end.

Definition lru_prefer_clean_eviction_index (cs : cache_system) (set_idx : Z)
  : M lru_policy Z :=
  do assoc <- load_associativity;
  let i0 := int_of_uint32 (uint32 (assoc - 1)) in
  do found <- find_clean_line cs set_idx assoc i0 (Z.to_nat (i0 + 1));
  match found with
  | Some line_idx_in_set => ret line_idx_in_set
  | None => load_order set_idx (uint32 (assoc - 1))
  end.

Definition lru_prefer_clean_cache_access (cs : cache_system) (set_idx t : Z)
  : M lru_policy unit :=
  let set_start := uint32 (set_idx * cs_associativity cs) in
  do accessed_line_idx <-
    lift (find_accessed_line cs set_start t 0
            (Z.to_nat (cs_associativity cs)));
  if decide (accessed_line_idx < 0) then ret tt
  else
    do assoc <- load_associativity;
    do p <- find_position set_idx accessed_line_idx 0 (Z.to_nat assoc);
    if decide (p < 0) then ret tt
    else
      shift_order set_idx p (Z.to_nat p);;
      store_order set_idx 0 (uint32_of_int accessed_line_idx).

Definition lru_prefer_clean_replacement_policy_cleanup
    (replacement_policy : option lru_policy)
  : option (list block * option lru_policy) :=
  match replacement_policy with
  | None => None
  | Some rp =>
      match data rp with
      | None => Some ([], Some rp)
      | Some md =>
          match free_order_rows md 0 (Z.to_nat (num_sets md)) with
          | Some freed =>
              Some (freed ++ [OrderTable; Metadata],
                    Some (mk_replacement_policy None))
          | None => None
          end
      end
  end.

Definition lru_prefer_clean_replacement_policy_new
    (policy_ok metadata_ok : bool) (sets associativity : Z)
  : option lru_policy :=
  if negb policy_ok then None
  else if negb metadata_ok then None
  else Some (mk_replacement_policy (Some
         (mk_lru_metadata sets associativity
            (init_order associativity (Z.to_nat sets))))).

(* ===================================================================== *)
(** ** RAND *)
(* ===================================================================== *)

Abbreviation rand_policy := (replacement_policy rand_metadata).

(** [rand_eviction_index] of src/replacement_policies.c:
    [return rand() % assoc;].  The state of the generator belongs to the C
    library, not to the policy; [r] is the [int] that this call of [rand()]
    returns, a value in [0, RAND_MAX].  The remainder is taken on
    [uint32_t], and a zero divisor is undefined behaviour. *)
Definition rand_eviction_index (r : Z) (cs : cache_system) (set_idx : Z)
  : M rand_policy Z :=
  fun rp => match data rp with
            | Some md =>
                let assoc := rand_associativity md in
                if decide (assoc = 0) then None
                else Some (uint32_of_int r mod assoc, rp)
            | None => None
            end.

Definition rand_cache_access (cs : cache_system) (set_idx t : Z)
  : M rand_policy unit :=
  ret tt.

Definition rand_replacement_policy_cleanup
    (replacement_policy : option rand_policy)
  : option (list block * option rand_policy) :=
  match replacement_policy with
  | None => Some ([], None)
  | Some rp =>
      match data rp with
      | None => Some ([], Some rp)
      | Some _ => Some ([Metadata], Some (mk_replacement_policy None))
      end
  end.

(** [rand_replacement_policy_new]; the call [srand(time(NULL))] acts on the
    generator of the C library only. *)
Definition rand_replacement_policy_new (policy_ok metadata_ok : bool)
    (sets associativity : Z) : option rand_policy :=
  if negb policy_ok then None
  else if negb metadata_ok then None
  else Some (mk_replacement_policy (Some
         (mk_rand_metadata sets associativity))).

(** Modelled from the spec: [randombytes_uniform] of libsodium, which the
    second version of the file calls in place of [rand() % assoc] and which
    is not among the sources; "an unbiased uniform-integer generator
    (rejection sampling or equivalent)".  [randombytes_uniform_accept]
    is what one 32-bit word [w] of the underlying generator leads to: [None]
    when the word is rejected and another one is drawn. *)
Definition randombytes_uniform_accept (upper_bound w : Z) : option Z :=
  if decide (upper_bound < 2) then Some 0
  else if decide (w < UINT32_MODULUS mod upper_bound) then None
  else Some (w mod upper_bound).

Fixpoint randombytes_uniform (upper_bound : Z) (words : list Z)
  : option Z :=
  match words with
  | [] => None
  | w :: words' =>
      match randombytes_uniform_accept upper_bound w with
      | Some v => Some v
      | None => randombytes_uniform upper_bound words'
      end
  end.

(** [rand_eviction_index] of the second version of the file:
    [return randombytes_uniform(assoc);]. *)
Definition rand_eviction_index_sodium (words : list Z) (cs : cache_system)
    (set_idx : Z) : M rand_policy Z :=
  fun rp => match data rp with
            | Some md =>
                match randombytes_uniform (rand_associativity md) words with
                | Some v => Some (v, rp)
                | None => None
                end
            | None => None
            end.

(* ===================================================================== *)
(** ** The function pointers of a policy *)
(* ===================================================================== *)

(** The two policies that own an order table. *)
Inductive recency_kind : Type :=
  | LRU
  | LRU_PREFER_CLEAN.

(** The functions that the constructor of each kind stores in the fields
    [eviction_index], [cache_access] and [cleanup] of the policy. *)
Definition new (k : recency_kind)
  : bool -> bool -> Z -> Z -> option lru_policy :=
  match k with
  | LRU => lru_replacement_policy_new
  | LRU_PREFER_CLEAN => lru_prefer_clean_replacement_policy_new
  end.

Definition eviction_index (k : recency_kind)
  : cache_system -> Z -> M lru_policy Z :=
  match k with
  | LRU => lru_eviction_index
  | LRU_PREFER_CLEAN => lru_prefer_clean_eviction_index
  end.

Definition cache_access (k : recency_kind)
  : cache_system -> Z -> Z -> M lru_policy unit :=
  match k with
  | LRU => lru_cache_access
  | LRU_PREFER_CLEAN => lru_prefer_clean_cache_access
  end.

Definition cleanup (k : recency_kind)
  : option lru_policy -> option (list block * option lru_policy) :=
  match k with
  | LRU => lru_replacement_policy_cleanup
  | LRU_PREFER_CLEAN => lru_prefer_clean_replacement_policy_cleanup
  end.

(* ===================================================================== *)
(** ** Vocabulary of the design document *)
(* ===================================================================== *)

Definition uint32_range (x : Z) : Prop := 0 <= x < UINT32_MODULUS.

(** Line [i] of set [set_idx] of the cache. *)
Definition set_line (cs : cache_system) (set_idx i : Z) : option cache_line :=
  index (cache_lines cs) (set_idx * cs_associativity cs + i).

(** The line holds tag [t] and is not INVALID. *)
Definition resident (t : Z) (cl : cache_line) : Prop :=
  tag cl = t /\ status cl <> INVALID.

(** Tag [t] resolves to local index [i] of set [set_idx]: line [i] is the
    first line of the set that holds [t] and is not INVALID. *)
Definition resolves_to (cs : cache_system) (set_idx t i : Z) : Prop :=
  0 <= i < cs_associativity cs /\
  (exists cl, set_line cs set_idx i = Some cl /\ resident t cl) /\
  (forall j, 0 <= j < i ->
     exists cl, set_line cs set_idx j = Some cl /\ ~ resident t cl).

(** No line of set [set_idx] holds tag [t] with a status other than
    INVALID. *)
Definition not_resident (cs : cache_system) (set_idx t : Z) : Prop :=
  forall i, 0 <= i < cs_associativity cs ->
    exists cl, set_line cs set_idx i = Some cl /\ ~ resident t cl.

(** Some line of the set is clean. *)
Definition has_clean_line (cs : cache_system) (set_idx : Z) : Prop :=
  exists i cl, 0 <= i < cs_associativity cs /\
    set_line cs set_idx i = Some cl /\ status cl = EXCLUSIVE.

(** Every set's order table is a permutation of [0, associativity). *)
Definition order_invariant (md : lru_metadata) : Prop :=
  forall s row, order md !! s = Some row ->
    row ≡ₚ seqZ 0 (associativity md).

(** A policy with an order table and the cache it was built for: the two
    agree on the associativity, the cache has [num_sets * associativity]
    lines, a number that a [uint32_t] index reaches, the associativity is
    positive and fits an [int], and there is one order table per set. *)
Record well_formed (cs : cache_system) (md : lru_metadata) : Prop :=
  mk_well_formed {
    wf_associativity : 0 < associativity md <= INT_MAX + 1;
    wf_num_sets : 0 <= num_sets md;
    wf_cache_associativity : cs_associativity cs = associativity md;
    wf_cache_lines :
      Z.of_nat (length (cache_lines cs)) = num_sets md * associativity md;
    wf_addressable : num_sets md * associativity md <= UINT32_MODULUS;
    wf_order_length : Z.of_nat (length (order md)) = num_sets md;
    wf_order : order_invariant md
  }.

(** The order table of [set] with [row] in place of its former content. *)
Definition with_order_row (md : lru_metadata) (set : nat) (row : list Z)
  : lru_metadata :=
  mk_lru_metadata (num_sets md) (associativity md) (<[set := row]> (order md)).

(** The entry at position [p] moved to the front. *)
Definition move_to_front (p : nat) (x : Z) (row : list Z) : list Z :=
  x :: take p row ++ drop (S p) row.

(** The number of values [r] of [rand()], between [0] and [rand_max], on
    which [rand_eviction_index] returns [j]. *)
Definition rand_draws_returning (rand_max : Z) (rp : rand_policy) (j : Z)
  : nat :=
  length (filter
    (fun r => fst <$> rand_eviction_index r (mk_cache_system 0 []) 0 rp
              = Some j)
    (seqZ 0 (rand_max + 1))).

(** The number of 32-bit words that [randombytes_uniform] accepts and maps
    to [j]. *)
Definition sodium_words_returning (upper_bound : Z) (j : Z) : nat :=
  length (filter
    (fun w => randombytes_uniform_accept upper_bound w = Some j)
    (seqZ 0 UINT32_MODULUS)).

(** The states of a policy of kind [k] built for [sets] sets of
    [associativity] lines: the state the constructor returns, and every
    state in which a call of one of its functions returns. *)
Inductive reachable (k : recency_kind) (sets associativity : Z)
  : lru_policy -> Prop :=
  | reachable_new (rp : lru_policy) :
      new k true true sets associativity = Some rp ->
      reachable k sets associativity rp
  | reachable_cache_access (cs : cache_system) (set_idx t : Z)
      (rp rp' : lru_policy) (u : unit) :
      reachable k sets associativity rp ->
      cache_access k cs set_idx t rp = Some (u, rp') ->
      reachable k sets associativity rp'
  | reachable_eviction_index (cs : cache_system) (set_idx r : Z)
      (rp rp' : lru_policy) :
      reachable k sets associativity rp ->
      eviction_index k cs set_idx rp = Some (r, rp') ->
      reachable k sets associativity rp'.

(** [md'] differs from [md] in the order table of [set_idx] at most. *)
Definition same_but_order_of (set_idx : Z) (md md' : lru_metadata) : Prop :=
  num_sets md' = num_sets md /\
  associativity md' = associativity md /\
  length (order md') = length (order md) /\
  forall s, s <> set_idx -> index (order md') s = index (order md) s.

(** Two calls of [lru_eviction_index] in a row, and their two results. *)
Definition lru_eviction_index_twice (cs : cache_system) (set_idx : Z)
  : M lru_policy (Z * Z) :=
  do first <- lru_eviction_index cs set_idx;
  do second <- lru_eviction_index cs set_idx;
  ret (first, second).

(** A cache of [sets] sets of [a] lines each. *)
Definition cache_of (sets a : Z) (cs : cache_system) : Prop :=
  cs_associativity cs = a /\
  Z.of_nat (length (cache_lines cs)) = sets * a.

(* ===================================================================== *)
(** ** A cache of two sets of four lines *)
(* ===================================================================== *)

(** Set 0 is full, with lines 1 and 3 clean; set 1 is all dirty but for
    one invalid line. *)
Definition scenario_cache : cache_system :=
  mk_cache_system 4
    [ mk_cache_line 10 (DIRTY 0); mk_cache_line 11 EXCLUSIVE;
      mk_cache_line 12 (DIRTY 0); mk_cache_line 13 EXCLUSIVE;
      mk_cache_line 20 (DIRTY 0); mk_cache_line 21 (DIRTY 1);
      mk_cache_line 22 INVALID; mk_cache_line 23 (DIRTY 0) ].

Definition scenario_metadata : lru_metadata :=
  mk_lru_metadata 2 4 [ [3; 2; 1; 0]; [0; 1; 2; 3] ].

Definition scenario_policy : lru_policy :=
  mk_replacement_policy (Some scenario_metadata).

(* ===================================================================== *)
(** ** Runs of several calls *)
(* ===================================================================== *)

(** One call of the access function after the other on one set, each
    with the cache as it is at that call and with its tag. *)
Fixpoint access_sequence (k : recency_kind) (set_idx : Z)
    (calls : list (cache_system * Z)) : M lru_policy unit :=
  match calls with
  | [] => ret tt
  | (cs, t) :: calls' =>
      cache_access k cs set_idx t;; access_sequence k set_idx calls'
  end.

(** The call [call], a cache and a tag, is an access to line [i] of the
    set: the cache has the geometry of the policy, and in it the tag
    resolves to [i]. *)
Definition accesses_line (md : lru_metadata) (set_idx : Z)
    (call : cache_system * Z) (i : Z) : Prop :=
  cache_of (num_sets md) (associativity md) (fst call) /\
  resolves_to (fst call) set_idx (snd call) i.

(** [scenario_cache] after line 0 of set 0 has been filled with tag 14. *)
Definition scenario_cache_refilled : cache_system :=
  mk_cache_system 4
    [ mk_cache_line 14 EXCLUSIVE; mk_cache_line 11 EXCLUSIVE;
      mk_cache_line 12 (DIRTY 0); mk_cache_line 13 EXCLUSIVE;
      mk_cache_line 20 (DIRTY 0); mk_cache_line 21 (DIRTY 1);
      mk_cache_line 22 INVALID; mk_cache_line 23 (DIRTY 0) ].

(** A cache of two sets of two lines, each set with one clean line. *)
Definition two_by_two_cache : cache_system :=
  mk_cache_system 2
    [ mk_cache_line 7 (DIRTY 0); mk_cache_line 8 EXCLUSIVE;
      mk_cache_line 9 EXCLUSIVE; mk_cache_line 6 (DIRTY 0) ].

(** An order with the entry [i] in front and the other entries behind it,
    in the order they had. *)
Definition touch (row : list Z) (i : Z) : list Z :=
  i :: filter (fun x => x <> i) row.

(** The blocks that the cleanup of a policy for [sets] sets frees, in the
    order of the calls of [free]. *)
Definition blocks_of_policy (sets : Z) : list block :=
  (OrderRow <$> seqZ 0 sets) ++ [OrderTable; Metadata].

(** The calls of [rand_cache_access] for a list of accesses, each with its
    cache, set index and tag. *)
Fixpoint rand_access_sequence (calls : list (cache_system * Z * Z))
  : M rand_policy unit :=
  match calls with
  | [] => ret tt
  | (cs, set_idx, t) :: calls' =>
      rand_cache_access cs set_idx t;; rand_access_sequence calls'
  end.

(* ===================================================================== *)
(** ** Integers and arrays *)
(* ===================================================================== *)

Lemma index_Some {A : Type} (a : list A) (i : Z) (x : A) :
  index a i = Some x <-> 0 <= i /\ a !! Z.to_nat i = Some x.
Proof.
  unfold index. case_decide; [tauto|]. split; [discriminate|lia].
Qed.

Lemma index_of_nat {A : Type} (a : list A) (n : nat) :
  index a (Z.of_nat n) = a !! n.
Proof.
  unfold index. rewrite decide_True by lia. by rewrite Nat2Z.id.
Qed.

Lemma index_is_Some {A : Type} (a : list A) (i : Z) :
  0 <= i < Z.of_nat (length a) -> is_Some (index a i).
Proof.
  intros Hi. unfold index. rewrite decide_True by lia.
  apply lookup_lt_is_Some. lia.
Qed.

Lemma index_lt_length {A : Type} (a : list A) (i : Z) (x : A) :
  index a i = Some x -> 0 <= i < Z.of_nat (length a).
Proof.
  intros [Hi Hx]%index_Some. apply lookup_lt_Some in Hx. lia.
Qed.

Lemma uint32_small (x : Z) : uint32_range x -> uint32 x = x.
Proof. intros Hx. unfold uint32. apply Z.mod_small. exact Hx. Qed.

Lemma uint32_of_int_small (x : Z) : uint32_range x -> uint32_of_int x = x.
Proof. intros Hx. unfold uint32_of_int. apply Z.mod_small. exact Hx. Qed.

Lemma int_of_uint32_small (u : Z) : u <= INT_MAX -> int_of_uint32 u = u.
Proof. intros Hu. unfold int_of_uint32. by rewrite decide_True. Qed.

(** An index that is still non-negative as an [int] was not changed by the
    conversion. *)
Lemma int_of_uint32_nonneg (u : Z) :
  uint32_range u -> 0 <= int_of_uint32 u ->
  int_of_uint32 u = u /\ u <= INT_MAX.
Proof.
  unfold uint32_range, int_of_uint32, UINT32_MODULUS.
  intros Hu. case_decide; lia.
Qed.

Lemma line_matches_resident (t : Z) (cl : cache_line) :
  line_matches t cl = true <-> resident t cl.
Proof.
  unfold line_matches, resident.
  rewrite andb_true_iff, negb_true_iff, bool_decide_eq_true,
    bool_decide_eq_false. tauto.
Qed.

Lemma line_matches_not_resident (t : Z) (cl : cache_line) :
  line_matches t cl = false <-> ~ resident t cl.
Proof.
  rewrite <- line_matches_resident. destruct (line_matches t cl); split;
    congruence.
Qed.

Lemma with_order_row_id (md : lru_metadata) (s : nat) (row : list Z) :
  order md !! s = Some row -> with_order_row md s row = md.
Proof.
  intros Hrow. destruct md as [n a o]. unfold with_order_row. simpl in *.
  f_equal. by apply list_insert_id.
Qed.

Lemma with_order_row_twice (md : lru_metadata) (s : nat) (r1 r2 : list Z) :
  with_order_row (with_order_row md s r1) s r2 = with_order_row md s r2.
Proof.
  unfold with_order_row. simpl. f_equal. apply list_insert_insert_eq.
Qed.

Lemma order_with_order_row (md : lru_metadata) (s : nat) (row row' : list Z) :
  order md !! s = Some row ->
  order (with_order_row md s row') !! s = Some row'.
Proof.
  intros Hrow. simpl. apply list_lookup_insert_eq.
  by apply lookup_lt_Some in Hrow.
Qed.

(* ===================================================================== *)
(** ** The accessors *)
(* ===================================================================== *)

Lemma load_order_Some (s i v : Z) (rp rp' : lru_policy) :
  load_order s i rp = Some (v, rp') <->
  rp' = rp /\ exists md row,
    data rp = Some md /\ index (order md) s = Some row /\
    index row i = Some v.
Proof.
  unfold load_order. split.
  - destruct (data rp) as [md|] eqn:Hmd; [|discriminate].
    destruct (index (order md) s) as [row|] eqn:Hrow; [|discriminate].
    destruct (index row i) as [x|] eqn:Hx; [|discriminate].
    intros [= <- <-]. eauto 6.
  - intros (-> & md & row & -> & -> & ->). reflexivity.
Qed.

Lemma load_order_run (s i v : Z) (md : lru_metadata) (row : list Z) :
  index (order md) s = Some row -> index row i = Some v ->
  load_order s i (mk_replacement_policy (Some md))
  = Some (v, mk_replacement_policy (Some md)).
Proof. intros Hrow Hv. apply load_order_Some. eauto 6. Qed.

Lemma store_order_run (s i v x : Z) (md : lru_metadata) (row : list Z) :
  index (order md) s = Some row -> index row i = Some x ->
  store_order s i v (mk_replacement_policy (Some md))
  = Some (tt, mk_replacement_policy
            (Some (with_order_row md (Z.to_nat s) (<[Z.to_nat i := v]> row)))).
Proof.
  intros Hrow Hx. unfold store_order. simpl. by rewrite Hrow, Hx.
Qed.

Lemma policy_eta {D : Type} (rp : replacement_policy D) (md : D) :
  data rp = Some md -> rp = mk_replacement_policy (Some md).
Proof. destruct rp as [d]. simpl. by intros ->. Qed.

(* ===================================================================== *)
(** ** The loops of [lru_cache_access] *)
(* ===================================================================== *)

Lemma find_accessed_line_sound (cs : cache_system) (start t : Z) (n : nat) :
  forall i0 r,
    find_accessed_line cs start t i0 n = Some r ->
    r = -1 \/
    exists i cl, i0 <= i < i0 + Z.of_nat n /\ r = int_of_uint32 i /\
      index (cache_lines cs) (start + i) = Some cl /\ resident t cl.
Proof.
  induction n as [|n IH]; intros i0 r; simpl.
  - intros [= <-]. by left.
  - destruct (index (cache_lines cs) (start + i0)) as [cl|] eqn:Hcl;
      [|discriminate].
    destruct (line_matches t cl) eqn:Hm.
    + intros [= <-]. right. exists i0, cl.
      apply line_matches_resident in Hm. repeat split; [lia..|done|apply Hm|apply Hm].
    + intros Hr. destruct (IH _ _ Hr) as [->|(i & cl' & Hi & -> & Hcl' & Hres)];
        [by left|right].
      exists i, cl'. repeat split; [lia..|done|apply Hres|apply Hres].
Qed.

Lemma find_accessed_line_first (cs : cache_system) (start t i : Z) (n : nat) :
  forall i0,
    i0 <= i < i0 + Z.of_nat n ->
    (forall j, i0 <= j < i ->
       exists cl, index (cache_lines cs) (start + j) = Some cl /\
                  ~ resident t cl) ->
    (exists cl, index (cache_lines cs) (start + i) = Some cl /\
                resident t cl) ->
    find_accessed_line cs start t i0 n = Some (int_of_uint32 i).
Proof.
  induction n as [|n IH]; intros i0 Hi Hbefore Hat; simpl; [lia|].
  destruct (decide (i0 = i)) as [->|Hne].
  - destruct Hat as (cl & -> & Hres).
    apply line_matches_resident in Hres. by rewrite Hres.
  - destruct (Hbefore i0) as (cl & -> & Hres); [lia|].
    apply line_matches_not_resident in Hres. rewrite Hres.
    apply IH; [lia| |done]. intros j Hj. apply Hbefore. lia.
Qed.

Lemma find_accessed_line_absent (cs : cache_system) (start t : Z) (n : nat) :
  forall i0,
    (forall j, i0 <= j < i0 + Z.of_nat n ->
       exists cl, index (cache_lines cs) (start + j) = Some cl /\
                  ~ resident t cl) ->
    find_accessed_line cs start t i0 n = Some (-1).
Proof.
  induction n as [|n IH]; intros i0 Hall; simpl; [done|].
  destruct (Hall i0) as (cl & -> & Hres); [lia|].
  apply line_matches_not_resident in Hres. rewrite Hres.
  apply IH. intros j Hj. apply Hall. lia.
Qed.

Lemma find_accessed_line_total (cs : cache_system) (start t : Z) (n : nat) :
  forall i0,
    (forall j, i0 <= j < i0 + Z.of_nat n ->
       is_Some (index (cache_lines cs) (start + j))) ->
    is_Some (find_accessed_line cs start t i0 n).
Proof.
  induction n as [|n IH]; intros i0 Hall; simpl; [by eexists|].
  destruct (Hall i0) as [cl ->]; [lia|].
  destruct (line_matches t cl); [by eexists|].
  apply IH. intros j Hj. apply Hall. lia.
Qed.

(** The second loop only reads: it leaves the policy as it found it, and a
    result other than [-1] is the converted index of an entry equal to the
    accessed line. *)
Lemma find_position_sound (s a : Z) (n : nat) :
  forall i0 p (rp rp' : lru_policy),
    find_position s a i0 n rp = Some (p, rp') ->
    rp' = rp /\
    (p = -1 \/
     exists j md row, i0 <= j < i0 + Z.of_nat n /\ p = int_of_uint32 j /\
       data rp = Some md /\ index (order md) s = Some row /\
       index row j = Some (uint32_of_int a)).
Proof.
  induction n as [|n IH]; intros i0 p rp rp'; simpl.
  - intros [= <- <-]. split; [done|by left].
  - unfold bind at 1.
    destruct (load_order s i0 rp) as [[v rp1]|] eqn:Hload; [|discriminate].
    apply load_order_Some in Hload as (-> & md & row & Hmd & Hrow & Hv).
    case_decide as Hva.
    + intros [= <- <-]. split; [done|right].
      exists i0, md, row. subst v. repeat split; [lia..|done|done|done].
    + intros Hrun. destruct (IH _ _ _ _ Hrun) as [-> Hp]. split; [done|].
      destruct Hp as [->|(j & md' & row' & Hj & -> & Hmd' & Hrow' & Hj')];
        [by left|right].
      exists j, md', row'. repeat split; [lia..|done|done|done].
Qed.

Lemma find_position_first (s a j : Z) (md : lru_metadata) (row : list Z)
    (n : nat) :
  index (order md) s = Some row ->
  index row j = Some (uint32_of_int a) ->
  forall i0,
    0 <= i0 <= j -> j < i0 + Z.of_nat n ->
    (forall k, i0 <= k < j -> index row k <> Some (uint32_of_int a)) ->
    find_position s a i0 n (mk_replacement_policy (Some md))
    = Some (int_of_uint32 j, mk_replacement_policy (Some md)).
Proof.
  intros Hrow Hj. induction n as [|n IH]; intros i0 Hi0 Hn Hfirst; simpl;
    [lia|].
  unfold bind at 1. destruct (decide (i0 = j)) as [->|Hne].
  - rewrite (load_order_run _ _ _ _ _ Hrow Hj). by rewrite decide_True.
  - destruct (index_is_Some row i0) as [v Hv].
    { apply index_lt_length in Hj. lia. }
    rewrite (load_order_run _ _ _ _ _ Hrow Hv).
    rewrite decide_False.
    + apply IH; [lia..|]. intros k Hk. apply Hfirst. lia.
    + intros ->. by apply (Hfirst i0); [lia|].
Qed.

Lemma find_position_total (s a : Z) (md : lru_metadata) (row : list Z)
    (n : nat) :
  index (order md) s = Some row ->
  forall i0,
    0 <= i0 -> i0 + Z.of_nat n <= Z.of_nat (length row) ->
    exists p, find_position s a i0 n (mk_replacement_policy (Some md))
              = Some (p, mk_replacement_policy (Some md)).
Proof.
  intros Hrow. induction n as [|n IH]; intros i0 Hi0 Hn; simpl;
    [by eexists|].
  unfold bind at 1. destruct (index_is_Some row i0) as [v Hv]; [lia|].
  rewrite (load_order_run _ _ _ _ _ Hrow Hv).
  case_decide; [by eexists|]. apply IH; lia.
Qed.

(** The third loop moves the entries at positions [0 .. n-1] one slot
    toward the tail and leaves position [0] as it was. *)
Lemma shift_order_run (s : Z) (n : nat) :
  forall (md : lru_metadata) (row : list Z),
    index (order md) s = Some row ->
    (n < length row)%nat ->
    shift_order s (Z.of_nat n) n (mk_replacement_policy (Some md))
    = Some (tt, mk_replacement_policy (Some
        (with_order_row md (Z.to_nat s)
           (take 1 row ++ take n row ++ drop (S n) row)))).
Proof.
  induction n as [|n IH]; intros md row Hrow Hn.
  - cbn [shift_order]. unfold ret. do 3 f_equal. symmetry.
    rewrite take_0, app_nil_l, take_drop. f_equal. apply with_order_row_id.
    apply index_Some in Hrow as [_ Hrow]. exact Hrow.
  - cbn [shift_order]. unfold bind at 1.
    destruct (lookup_lt_is_Some_2 row n) as [v Hv]; [lia|].
    destruct (lookup_lt_is_Some_2 row (S n)) as [w Hw]; [lia|].
    replace (Z.of_nat (S n) - 1) with (Z.of_nat n) by lia.
    rewrite (load_order_run s (Z.of_nat n) v md row Hrow)
      by (by rewrite index_of_nat).
    unfold bind at 1.
    rewrite (store_order_run s (Z.of_nat (S n)) v w md row Hrow)
      by (by rewrite index_of_nat).
    rewrite Nat2Z.id.
    pose proof Hrow as [Hs Hrow']%index_Some.
    rewrite (IH _ (<[S n := v]> row)).
    + rewrite with_order_row_twice. do 4 f_equal.
      rewrite !take_insert_ge by lia.
      rewrite drop_insert_ge by lia. rewrite Nat.sub_diag.
      rewrite (take_S_r row n v Hv), <- !app_assoc. do 2 f_equal.
      rewrite (drop_S row w (S n) Hw). reflexivity.
    + apply index_Some. split; [done|].
      by apply order_with_order_row with (row := row).
    + rewrite length_insert. lia.
Qed.

(** The end of [lru_cache_access]: the third loop and the final store. *)
Lemma move_entry_run (s x : Z) (j : nat) (md : lru_metadata) (row : list Z) :
  index (order md) s = Some row ->
  (j < length row)%nat ->
  (shift_order s (Z.of_nat j) j;; store_order s 0 x)
    (mk_replacement_policy (Some md))
  = Some (tt, mk_replacement_policy (Some
      (with_order_row md (Z.to_nat s) (move_to_front j x row)))).
Proof.
  intros Hrow Hj. unfold bind.
  rewrite (shift_order_run s j md row Hrow Hj).
  pose proof Hrow as [Hs Hrow']%index_Some.
  destruct row as [|y row]; [simpl in Hj; lia|].
  rewrite (store_order_run s 0 x y _
             (take 1 (y :: row) ++ take j (y :: row) ++ drop (S j) (y :: row))).
  - by rewrite with_order_row_twice.
  - apply index_Some. split; [done|].
    by apply order_with_order_row with (row := y :: row).
  - reflexivity.
Qed.

(** What a call of [lru_cache_access] that returns has done: nothing, or it
    has moved one entry of the order of [set_idx] to the front. *)
Lemma lru_cache_access_cases (cs : cache_system) (s t : Z)
    (rp rp' : lru_policy) (u : unit) :
  (forall md, data rp = Some md -> associativity md <= UINT32_MODULUS) ->
  lru_cache_access cs s t rp = Some (u, rp') ->
  rp' = rp \/
  exists md row p x,
    data rp = Some md /\ 0 <= s /\ order md !! Z.to_nat s = Some row /\
    row !! p = Some x /\
    rp' = mk_replacement_policy (Some
            (with_order_row md (Z.to_nat s) (move_to_front p x row))).
Proof.
  intros Hrange. unfold lru_cache_access, bind at 1, lift.
  destruct (find_accessed_line _ _ _ _ _) as [r|]; [|discriminate].
  case_decide as Hr; [intros [= <- <-]; by left|].
  unfold bind at 1, load_associativity.
  destruct (data rp) as [md|] eqn:Hmd; [|discriminate].
  unfold bind at 1.
  destruct (find_position _ _ _ _ _) as [[p rp1]|] eqn:Hfind; [|discriminate].
  apply find_position_sound in Hfind as [-> Hp].
  case_decide as Hneg; [intros [= <- <-]; by left|].
  destruct Hp as [->|(j & md' & row & Hj & -> & Hmd' & Hrow & Hat)]; [lia|].
  assert (md' = md) as -> by congruence.
  destruct (int_of_uint32_nonneg j) as [Hjj Hjmax]; [|lia|].
  { specialize (Hrange md eq_refl). unfold uint32_range. lia. }
  rewrite Hjj. rewrite (policy_eta rp md Hmd).
  replace j with (Z.of_nat (Z.to_nat j)) at 1 by lia.
  pose proof Hat as [_ Hat']%index_Some.
  rewrite (move_entry_run s _ (Z.to_nat j) md row Hrow)
    by (by apply lookup_lt_Some in Hat').
  intros [= <- <-]. right.
  apply index_Some in Hrow as [Hs Hrow].
  exists md, row, (Z.to_nat j), (uint32_of_int r). by repeat split.
Qed.

(** Moving an entry of a row to the front permutes the row. *)
Lemma move_to_front_Permutation (p : nat) (x : Z) (row : list Z) :
  row !! p = Some x -> move_to_front p x row ≡ₚ row.
Proof.
  intros Hp. unfold move_to_front.
  rewrite <- (take_drop_middle row p x Hp) at 3.
  by rewrite <- Permutation_middle.
Qed.

Lemma lookup_move_to_front_head (p : nat) (x : Z) (row : list Z) :
  move_to_front p x row !! 0%nat = Some x.
Proof. reflexivity. Qed.

Lemma lookup_move_to_front_shifted (p k : nat) (x : Z) (row : list Z) :
  (p < length row)%nat -> (k < p)%nat ->
  move_to_front p x row !! S k = row !! k.
Proof.
  intros Hp Hk. unfold move_to_front. simpl.
  rewrite lookup_app_l by (rewrite length_take; lia).
  by apply lookup_take_lt.
Qed.

Lemma lookup_move_to_front_behind (p k : nat) (x : Z) (row : list Z) :
  (p < length row)%nat -> (p < k)%nat ->
  move_to_front p x row !! k = row !! k.
Proof.
  intros Hp Hk. unfold move_to_front.
  destruct k as [|k]; [lia|]. simpl.
  rewrite lookup_app_r by (rewrite length_take; lia).
  rewrite length_take, lookup_drop. f_equal. lia.
Qed.

(* ===================================================================== *)
(** ** Well-formed policies *)
(* ===================================================================== *)

Lemma Permutation_seqZ_elem (row : list Z) (a x : Z) :
  row ≡ₚ seqZ 0 a -> x ∈ row <-> 0 <= x < a.
Proof. intros ->. rewrite elem_of_seqZ. lia. Qed.

Lemma Permutation_seqZ_NoDup (row : list Z) (a : Z) :
  row ≡ₚ seqZ 0 a -> NoDup row.
Proof. intros ->. apply NoDup_seqZ. Qed.

Lemma Permutation_seqZ_length (row : list Z) (a : Z) :
  row ≡ₚ seqZ 0 a -> length row = Z.to_nat a.
Proof. intros ->. apply length_seqZ. Qed.

Lemma well_formed_set_start (cs : cache_system) (md : lru_metadata) (s : Z) :
  well_formed cs md -> 0 <= s < num_sets md ->
  uint32 (s * associativity md) = s * associativity md.
Proof.
  intros [Ha Hn _ _ Haddr _ _] Hs. apply uint32_small.
  unfold uint32_range. nia.
Qed.

Lemma well_formed_set_line (cs : cache_system) (md : lru_metadata) (s i : Z) :
  well_formed cs md -> 0 <= s < num_sets md -> 0 <= i < associativity md ->
  is_Some (set_line cs s i).
Proof.
  intros [Ha Hn Hcs Hlen _ _ _] Hs Hi. unfold set_line.
  apply index_is_Some. rewrite Hcs, Hlen. nia.
Qed.

Lemma well_formed_global_idx (cs : cache_system) (md : lru_metadata)
    (s i : Z) :
  well_formed cs md -> 0 <= s < num_sets md -> 0 <= i < associativity md ->
  uint32 (uint32 (s * associativity md) + i) = s * associativity md + i.
Proof.
  intros Hwf Hs Hi. rewrite (well_formed_set_start cs md s Hwf Hs).
  destruct Hwf as [Ha Hn _ _ Haddr _ _]. apply uint32_small.
  unfold uint32_range. nia.
Qed.

Lemma well_formed_row (cs : cache_system) (md : lru_metadata) (s : Z) :
  well_formed cs md -> 0 <= s < num_sets md ->
  exists row, index (order md) s = Some row /\
    row ≡ₚ seqZ 0 (associativity md) /\
    Z.of_nat (length row) = associativity md.
Proof.
  intros [Ha _ _ _ _ Hlen Hord] Hs.
  destruct (index_is_Some (order md) s) as [row Hrow]; [lia|].
  exists row. split; [done|].
  pose proof Hrow as [_ Hrow']%index_Some.
  pose proof (Hord _ _ Hrow') as Hperm. split; [done|].
  rewrite (Permutation_seqZ_length _ _ Hperm). lia.
Qed.

Lemma well_formed_with_order_row (cs : cache_system) (md : lru_metadata)
    (s : nat) (row row' : list Z) :
  well_formed cs md -> order md !! s = Some row -> row' ≡ₚ row ->
  well_formed cs (with_order_row md s row').
Proof.
  intros [Ha Hn Hcs Hlen Haddr Hol Hord] Hrow Hperm.
  split; simpl; try done.
  - by rewrite length_insert.
  - intros s' r. simpl.
    destruct (decide (s = s')) as [<-|Hne].
    + rewrite list_lookup_insert_eq by (by apply lookup_lt_Some in Hrow).
      intros [= <-]. rewrite Hperm. by apply (Hord s).
    + rewrite list_lookup_insert_ne by done. apply Hord.
Qed.

(** [lru_cache_access] on a tag that resolves to line [i], which the order
    of the set holds at position [j]. *)
Lemma lru_cache_access_resolved (cs : cache_system) (md : lru_metadata)
    (s t i : Z) (row : list Z) (j : nat) :
  well_formed cs md -> 0 <= s < num_sets md ->
  resolves_to cs s t i ->
  index (order md) s = Some row -> row !! j = Some i ->
  lru_cache_access cs s t (mk_replacement_policy (Some md))
  = Some (tt, mk_replacement_policy (Some
      (with_order_row md (Z.to_nat s) (move_to_front j i row)))).
Proof.
  intros Hwf Hs (Hi & Hat & Hbefore) Hrow Hj.
  pose proof Hwf as [Ha Hn Hcs Hlen Haddr Hol Hord].
  pose proof Hrow as [_ Hrow']%index_Some.
  pose proof (Hord _ _ Hrow') as Hperm.
  pose proof (Permutation_seqZ_length _ _ Hperm) as Hrowlen.
  pose proof (lookup_lt_Some _ _ _ Hj) as Hjlt.
  rewrite Hcs in Hi.
  assert (int_of_uint32 i = i) as Hii by (apply int_of_uint32_small; lia).
  assert (uint32_of_int i = i) as Hui.
  { apply uint32_of_int_small. unfold uint32_range, UINT32_MODULUS.
    unfold INT_MAX in Ha. lia. }
  unfold lru_cache_access, bind at 1, lift.
  rewrite Hcs, (well_formed_set_start cs md s Hwf Hs).
  rewrite (find_accessed_line_first cs _ t i).
  - rewrite Hii, decide_False by lia.
    unfold bind at 1, load_associativity. simpl. unfold bind at 1.
    rewrite (find_position_first s i (Z.of_nat j) md row _ Hrow).
    + rewrite int_of_uint32_small by lia.
      rewrite decide_False by lia. rewrite Nat2Z.id, Hui.
      by apply move_entry_run.
    + by rewrite index_of_nat, Hui.
    + lia.
    + lia.
    + intros k Hk. rewrite Hui. intros [_ Hk']%index_Some.
      pose proof (Permutation_seqZ_NoDup _ _ Hperm) as Hnd.
      pose proof (NoDup_lookup _ _ _ _ Hnd Hk' Hj). lia.
  - lia.
  - intros k Hk. unfold set_line in Hbefore. rewrite Hcs in Hbefore.
    apply Hbefore. lia.
  - unfold set_line in Hat. by rewrite Hcs in Hat.
Qed.

(** On a well-formed policy [lru_cache_access] returns. *)
Lemma lru_cache_access_total (cs : cache_system) (md : lru_metadata)
    (s t : Z) :
  well_formed cs md -> 0 <= s < num_sets md ->
  exists rp', lru_cache_access cs s t (mk_replacement_policy (Some md))
              = Some (tt, rp').
Proof.
  intros Hwf Hs.
  pose proof Hwf as [Ha Hn Hcs Hlen Haddr Hol Hord].
  destruct (well_formed_row cs md s Hwf Hs) as (row & Hrow & Hperm & Hrowlen).
  unfold lru_cache_access, bind at 1, lift.
  rewrite Hcs, (well_formed_set_start cs md s Hwf Hs).
  destruct (find_accessed_line_total cs (s * associativity md) t
              (Z.to_nat (associativity md)) 0) as [r ->].
  { intros j Hj. destruct (well_formed_set_line cs md s j Hwf Hs) as [cl Hl];
      [lia|]. unfold set_line in Hl. rewrite Hcs in Hl. by exists cl. }
  case_decide; [by eexists|].
  unfold bind at 1, load_associativity. simpl. unfold bind at 1.
  destruct (find_position_total s r md row (Z.to_nat (associativity md))
              Hrow 0) as [p Hp]; [lia..|].
  rewrite Hp. case_decide as Hneg; [by eexists|].
  apply find_position_sound in Hp
    as [_ [->|(j & md' & row' & Hj & -> & [= <-] & Hrow' & Hat)]]; [lia|].
  assert (row' = row) as -> by congruence.
  destruct (int_of_uint32_nonneg j) as [Hjj Hjmax]; [|lia|].
  { unfold uint32_range, UINT32_MODULUS. unfold INT_MAX in Ha. lia. }
  rewrite Hjj. eexists.
  rewrite <- (Z2Nat.id j) at 1 by lia.
  apply (move_entry_run s _ (Z.to_nat j) md row Hrow). lia.
Qed.

(* ===================================================================== *)
(** ** The eviction functions only read *)
(* ===================================================================== *)

Lemma load_associativity_Some (a : Z) (rp rp' : lru_policy) :
  load_associativity rp = Some (a, rp') ->
  rp' = rp /\ exists md, data rp = Some md /\ a = associativity md.
Proof.
  unfold load_associativity.
  destruct (data rp) as [md|] eqn:Hmd; [|discriminate].
  intros [= <- <-]. eauto.
Qed.

Lemma lru_eviction_index_pure (cs : cache_system) (s r : Z)
    (rp rp' : lru_policy) :
  lru_eviction_index cs s rp = Some (r, rp') -> rp' = rp.
Proof.
  unfold lru_eviction_index, bind.
  destruct (load_associativity rp) as [[a rp1]|] eqn:Ha; [|discriminate].
  apply load_associativity_Some in Ha as [-> _].
  by intros [-> _]%load_order_Some.
Qed.

Lemma find_clean_line_pure (cs : cache_system) (s a : Z) (n : nat) :
  forall i res (rp rp' : lru_policy),
    find_clean_line cs s a i n rp = Some (res, rp') -> rp' = rp.
Proof.
  induction n as [|n IH]; intros i res rp rp'; simpl.
  - by intros [= _ <-].
  - unfold bind at 1.
    destruct (load_order s i rp) as [[x rp1]|] eqn:Hload; [|discriminate].
    apply load_order_Some in Hload as [-> _].
    unfold bind at 1, lift.
    destruct (index (cache_lines cs) _) as [cl|]; [|discriminate].
    case_decide; [by intros [= _ <-]|]. apply IH.
Qed.

Lemma lru_prefer_clean_eviction_index_pure (cs : cache_system) (s r : Z)
    (rp rp' : lru_policy) :
  lru_prefer_clean_eviction_index cs s rp = Some (r, rp') -> rp' = rp.
Proof.
  unfold lru_prefer_clean_eviction_index, bind at 1.
  destruct (load_associativity rp) as [[a rp1]|] eqn:Ha; [|discriminate].
  apply load_associativity_Some in Ha as [-> _].
  unfold bind at 1.
  destruct (find_clean_line _ _ _ _ _ _) as [[res rp1]|] eqn:Hfind;
    [|discriminate].
  apply find_clean_line_pure in Hfind as ->.
  destruct res as [x|]; [by intros [= _ <-]|].
  by intros [-> _]%load_order_Some.
Qed.

Lemma eviction_index_pure (k : recency_kind) (cs : cache_system) (s r : Z)
    (rp rp' : lru_policy) :
  eviction_index k cs s rp = Some (r, rp') -> rp' = rp.
Proof.
  destruct k; [apply lru_eviction_index_pure
              |apply lru_prefer_clean_eviction_index_pure].
Qed.

(* ===================================================================== *)
(** ** Construction *)
(* ===================================================================== *)

Lemma init_order_row_seqZ (n : nat) :
  forall i, init_order_row i n = seqZ i (Z.of_nat n).
Proof.
  induction n as [|n IH]; intros i; [done|].
  cbn [init_order_row]. rewrite seqZ_cons by lia. f_equal.
  rewrite IH. f_equal; lia.
Qed.

Lemma init_order_replicate (a : Z) (n : nat) :
  init_order a n = replicate n (seqZ 0 (Z.of_nat (Z.to_nat a))).
Proof.
  induction n as [|n IH]; [done|]. simpl. by rewrite IH, init_order_row_seqZ.
Qed.

Lemma seqZ_to_nat (a : Z) : seqZ 0 (Z.of_nat (Z.to_nat a)) = seqZ 0 a.
Proof.
  destruct (decide (0 <= a)); [by rewrite Z2Nat.id|].
  rewrite Z2Nat.nonpos by lia. by rewrite !seqZ_nil by lia.
Qed.

Lemma lookup_init_order (a : Z) (n s : nat) (row : list Z) :
  init_order a n !! s = Some row -> row = seqZ 0 a.
Proof.
  rewrite init_order_replicate, seqZ_to_nat.
  by intros [-> _]%lookup_replicate.
Qed.

Lemma length_init_order (a : Z) (n : nat) : length (init_order a n) = n.
Proof. rewrite init_order_replicate. apply length_replicate. Qed.

Lemma new_Some (k : recency_kind) (sets a : Z) (rp : lru_policy) :
  new k true true sets a = Some rp ->
  rp = mk_replacement_policy (Some
         (mk_lru_metadata sets a (init_order a (Z.to_nat sets)))).
Proof. destruct k; by intros [= <-]. Qed.

(* ===================================================================== *)
(** ** The example cache *)
(* ===================================================================== *)

Lemma scenario_well_formed : well_formed scenario_cache scenario_metadata.
Proof.
  split; simpl; unfold INT_MAX, UINT32_MODULUS; try lia; try reflexivity.
  intros [|[|s]] row; simpl; intros [= <-];
    apply (bool_decide_unpack _); vm_compute; exact I.
Defined.

(** Closes [exists cl, set_line .. = Some cl /\ ~ resident t cl] on a
    concrete line. *)
Ltac line_not_resident :=
  eexists; split; [reflexivity|];
  let Htag := fresh "Htag" in
  let Hst := fresh "Hst" in
  intros [Htag Hst]; first [discriminate Htag | by apply Hst].

Ltac line_resident :=
  eexists; split; [reflexivity|]; split; [reflexivity|discriminate].

Lemma scenario_resolves_10 : resolves_to scenario_cache 0 10 0.
Proof.
  split; [simpl; lia|]. split; [line_resident|]. intros j Hj. lia.
Defined.

Lemma scenario_resolves_11 : resolves_to scenario_cache 0 11 1.
Proof.
  split; [simpl; lia|]. split; [line_resident|].
  intros j Hj. assert (j = 0) as -> by lia. line_not_resident.
Defined.

Lemma scenario_resolves_12 : resolves_to scenario_cache 0 12 2.
Proof.
  split; [simpl; lia|]. split; [line_resident|].
  intros j Hj. assert (j = 0 \/ j = 1) as [-> | ->] by lia;
    line_not_resident.
Defined.

Lemma scenario_resolves_13 : resolves_to scenario_cache 0 13 3.
Proof.
  split; [simpl; lia|]. split; [line_resident|].
  intros j Hj. assert (j = 0 \/ j = 1 \/ j = 2) as [-> | [-> | ->]] by lia;
    line_not_resident.
Defined.

Lemma scenario_cache_of : cache_of 2 4 scenario_cache.
Proof. split; reflexivity. Defined.

(* ===================================================================== *)
(** ** Properties of the design document *)
(* ===================================================================== *)

(** C1, move-to-front law.  For LRU and LRU_PREFER_CLEAN, on a well-formed
    policy, a call of the access function with a tag that resolves to local
    index [i] returns, and afterwards the order of the set holds [i] at
    position 0, the entries that were at positions [0 .. p-1] one slot
    closer to the tail, [p] being the position [i] had, and the entries
    behind [p] where they were. *)
Theorem move_to_front_law (k : recency_kind) (cs : cache_system)
    (set_idx t i : Z) (rp : lru_policy) (md : lru_metadata) :
  data rp = Some md ->
  well_formed cs md ->
  0 <= set_idx < num_sets md ->
  resolves_to cs set_idx t i ->
  exists (p : Z) (row row' : list Z) (md' : lru_metadata),
    index (order md) set_idx = Some row /\
    index row p = Some i /\
    cache_access k cs set_idx t rp
      = Some (tt, mk_replacement_policy (Some md')) /\
    index (order md') set_idx = Some row' /\
    index row' 0 = Some i /\
    (forall q, 0 <= q < p -> index row' (q + 1) = index row q) /\
    (forall q, p < q -> index row' q = index row q).
Proof.
  intros Hmd Hwf Hs Hres.
  destruct (well_formed_row cs md set_idx Hwf Hs)
    as (row & Hrow & Hperm & Hlen).
  assert (i ∈ row) as [j Hj]%list_elem_of_lookup_1.
  { apply (Permutation_seqZ_elem row (associativity md) i Hperm).
    destruct Hres as [Hi _]. by rewrite (wf_cache_associativity _ _ Hwf) in Hi. }
  pose proof (lookup_lt_Some _ _ _ Hj) as Hjlt.
  pose proof Hrow as [Hs0 Hrow']%index_Some.
  exists (Z.of_nat j), row, (move_to_front j i row),
    (with_order_row md (Z.to_nat set_idx) (move_to_front j i row)).
  split; [done|]. split; [by rewrite index_of_nat|]. split.
  { rewrite (policy_eta rp md Hmd).
    replace (cache_access k) with lru_cache_access by (by destruct k).
    by apply lru_cache_access_resolved. }
  split.
  { apply index_Some. split; [done|].
    by apply order_with_order_row with (row := row). }
  split; [reflexivity|]. split.
  - intros q Hq. unfold index. rewrite !decide_True by lia.
    replace (Z.to_nat (q + 1)) with (S (Z.to_nat q)) by lia.
    apply lookup_move_to_front_shifted; lia.
  - intros q Hq. unfold index. rewrite !decide_True by lia.
    apply lookup_move_to_front_behind; lia.
Qed.

Lemma move_to_front_law_witness :
  exists (p : Z) (row row' : list Z) (md' : lru_metadata),
    index (order scenario_metadata) 0 = Some row /\
    index row p = Some 2 /\
    cache_access LRU_PREFER_CLEAN scenario_cache 0 12 scenario_policy
      = Some (tt, mk_replacement_policy (Some md')) /\
    index (order md') 0 = Some row' /\
    index row' 0 = Some 2 /\
    (forall q, 0 <= q < p -> index row' (q + 1) = index row q) /\
    (forall q, p < q -> index row' q = index row q).
Proof.
  apply (move_to_front_law LRU_PREFER_CLEAN scenario_cache 0 12 2
           scenario_policy scenario_metadata).
  - reflexivity.
  - exact scenario_well_formed.
  - simpl; lia.
  - exact scenario_resolves_12.
Defined.

Lemma order_invariant_with_order_row (md : lru_metadata) (s : nat)
    (row row' : list Z) :
  order_invariant md -> order md !! s = Some row -> row' ≡ₚ row ->
  order_invariant (with_order_row md s row').
Proof.
  intros Hord Hrow Hperm s' r. simpl.
  destruct (decide (s = s')) as [<-|Hne].
  - rewrite list_lookup_insert_eq by (by apply lookup_lt_Some in Hrow).
    intros [= <-]. rewrite Hperm. by apply (Hord s).
  - rewrite list_lookup_insert_ne by done. apply Hord.
Qed.

Lemma cache_access_unfold (k : recency_kind) :
  cache_access k = lru_cache_access.
Proof. by destruct k. Qed.

(** C2, permutation invariant.  For LRU and LRU_PREFER_CLEAN, the
    constructor leaves the identity [0, 1, ..., associativity-1] in the
    order table of every set, and in every state that the policy reaches
    afterwards each order table is a permutation of [0, associativity). *)
Theorem permutation_invariant (k : recency_kind) (sets a : Z) :
  uint32_range a ->
  (forall rp, new k true true sets a = Some rp ->
     exists md, data rp = Some md /\
       length (order md) = Z.to_nat sets /\
       forall s row, order md !! s = Some row -> row = seqZ 0 a) /\
  (forall rp, reachable k sets a rp ->
     exists md, data rp = Some md /\ associativity md = a /\
       order_invariant md).
Proof.
  intros Ha. split.
  - intros rp ->%new_Some. eexists. split; [reflexivity|]. simpl.
    split; [apply length_init_order|]. intros s row. apply lookup_init_order.
  - intros rp Hreach.
    induction Hreach as [rp Hnew|cs s t rp rp' u _ IH Hrun|cs s r rp rp' _ IH Hrun].
    + apply new_Some in Hnew as ->. eexists. split; [reflexivity|].
      split; [reflexivity|]. intros s row Hrow. simpl in *.
      by rewrite (lookup_init_order _ _ _ _ Hrow).
    + destruct IH as (md & Hmd & Hassoc & Hord).
      rewrite cache_access_unfold in Hrun.
      apply lru_cache_access_cases in Hrun
        as [->|(md' & row & p & x & Hmd' & _ & Hrow & Hp & ->)].
      * by exists md.
      * assert (md' = md) as -> by congruence.
        eexists. split; [reflexivity|]. split; [done|].
        apply order_invariant_with_order_row with (row := row); [done..|].
        by apply move_to_front_Permutation.
      * intros md' Hmd'. assert (md' = md) as -> by congruence.
        unfold uint32_range in Ha. lia.
    + apply eviction_index_pure in Hrun as ->. exact IH.
Qed.

Lemma permutation_invariant_witness :
  (exists md, data (mk_replacement_policy (Some
       (mk_lru_metadata 2 4 [ [0; 1; 2; 3]; [0; 1; 2; 3] ]))) = Some md /\
     length (order md) = Z.to_nat 2 /\
     forall s row, order md !! s = Some row -> row = seqZ 0 4) /\
  (exists md, data (mk_replacement_policy (Some
       (mk_lru_metadata 2 4 [ [2; 0; 1; 3]; [0; 1; 2; 3] ]))) = Some md /\
     associativity md = 4 /\ order_invariant md).
Proof.
  assert (uint32_range 4) as Hrange by (unfold uint32_range, UINT32_MODULUS; lia).
  destruct (permutation_invariant LRU 2 4 Hrange) as [Hnew Hreach].
  split.
  - apply Hnew. reflexivity.
  - apply Hreach.
    apply (reachable_cache_access LRU 2 4 scenario_cache 0 12
             (mk_replacement_policy (Some
                (mk_lru_metadata 2 4 [ [0; 1; 2; 3]; [0; 1; 2; 3] ]))) _ tt).
    + apply reachable_new. reflexivity.
    + vm_compute. reflexivity.
Defined.

(** C6, contract violation.  For LRU and LRU_PREFER_CLEAN, when no line of
    the set holds the tag with a status other than INVALID, the access
    function returns and the policy is what it was. *)
Theorem contract_violation_is_noop (k : recency_kind) (cs : cache_system)
    (set_idx t : Z) (rp : lru_policy) :
  uint32_range (set_idx * cs_associativity cs) ->
  not_resident cs set_idx t ->
  cache_access k cs set_idx t rp = Some (tt, rp).
Proof.
  intros Hrange Hnone. rewrite cache_access_unfold.
  unfold lru_cache_access, bind, lift.
  rewrite (uint32_small _ Hrange).
  rewrite (find_accessed_line_absent cs _ t).
  - by rewrite decide_True by lia.
  - intros j Hj. apply Hnone. lia.
Qed.

Lemma contract_violation_is_noop_witness :
  cache_access LRU scenario_cache 1 22 scenario_policy
  = Some (tt, scenario_policy).
Proof.
  apply contract_violation_is_noop.
  - unfold uint32_range, UINT32_MODULUS. simpl. lia.
  - intros i Hi. simpl in Hi.
    assert (i = 0 \/ i = 1 \/ i = 2 \/ i = 3) as [-> | [-> | [-> | ->]]] by lia;
      line_not_resident.
Defined.

(** C7.  The access function of LRU_PREFER_CLEAN is the access function of
    LRU: on every cache, set index, tag and policy state the two yield the
    same outcome and the same order tables. *)
Theorem lru_prefer_clean_cache_access_is_lru (cs : cache_system)
    (set_idx t : Z) (rp : lru_policy) :
  lru_prefer_clean_cache_access cs set_idx t rp
  = lru_cache_access cs set_idx t rp.
Proof. reflexivity. Qed.

(** C10, frame of the access function.  For LRU and LRU_PREFER_CLEAN, a
    call that returns leaves [num_sets], [associativity] and the order
    table of every set other than [set_idx] as they were; and on a
    well-formed policy the call returns. *)
Theorem cache_access_frame (k : recency_kind) (cs : cache_system)
    (set_idx t : Z) (rp : lru_policy) (md : lru_metadata) :
  data rp = Some md ->
  associativity md <= UINT32_MODULUS ->
  (forall u rp', cache_access k cs set_idx t rp = Some (u, rp') ->
     exists md', data rp' = Some md' /\ same_but_order_of set_idx md md') /\
  (well_formed cs md -> 0 <= set_idx < num_sets md ->
     exists rp', cache_access k cs set_idx t rp = Some (tt, rp')).
Proof.
  intros Hmd Ha. rewrite cache_access_unfold. split.
  - intros u rp' Hrun.
    apply lru_cache_access_cases in Hrun
      as [->|(md' & row & p & x & Hmd' & Hs & Hrow & Hp & ->)].
    + exists md. by repeat split.
    + assert (md' = md) as -> by congruence.
      eexists. split; [reflexivity|]. repeat split; simpl.
      * apply length_insert.
      * intros s Hne. unfold index. case_decide; [|done].
        apply list_lookup_insert_ne. lia.
    + intros md' Hmd'. congruence.
  - intros Hwf Hs. rewrite (policy_eta rp md Hmd).
    by apply lru_cache_access_total.
Qed.

Lemma cache_access_frame_witness :
  (forall u rp',
     cache_access LRU scenario_cache 0 12 scenario_policy = Some (u, rp') ->
     exists md', data rp' = Some md' /\
       same_but_order_of 0 scenario_metadata md') /\
  (exists rp', cache_access LRU scenario_cache 0 12 scenario_policy
               = Some (tt, rp')).
Proof.
  destruct (cache_access_frame LRU scenario_cache 0 12 scenario_policy
              scenario_metadata) as [Hframe Htotal].
  - reflexivity.
  - unfold UINT32_MODULUS. simpl. lia.
  - split; [exact Hframe|]. apply Htotal.
    + exact scenario_well_formed.
    + simpl. lia.
Defined.

(* ===================================================================== *)
(** ** The scan of [lru_prefer_clean_eviction_index] *)
(* ===================================================================== *)

(** The loop from position [i] down to position 0: it returns the entry of
    the highest position whose line is EXCLUSIVE, and ends without a result
    when there is none. *)
Lemma find_clean_line_run (cs : cache_system) (s a : Z) (md : lru_metadata)
    (row : list Z) (n : nat) :
  index (order md) s = Some row ->
  forall i,
    Z.of_nat n = i + 1 -> i < Z.of_nat (length row) ->
    (forall q x, 0 <= q <= i -> index row q = Some x ->
       is_Some (index (cache_lines cs) (uint32 (uint32 (s * a) + x)))) ->
    exists res,
      find_clean_line cs s a i n (mk_replacement_policy (Some md))
      = Some (res, mk_replacement_policy (Some md)) /\
      match res with
      | Some x =>
          exists q cl, 0 <= q <= i /\ index row q = Some x /\
            index (cache_lines cs) (uint32 (uint32 (s * a) + x)) = Some cl /\
            status cl = EXCLUSIVE /\
            forall q' x' cl', q < q' <= i -> index row q' = Some x' ->
              index (cache_lines cs) (uint32 (uint32 (s * a) + x')) = Some cl' ->
              status cl' <> EXCLUSIVE
      | None =>
          forall q x cl, 0 <= q <= i -> index row q = Some x ->
            index (cache_lines cs) (uint32 (uint32 (s * a) + x)) = Some cl ->
            status cl <> EXCLUSIVE
      end.
Proof.
  intros Hrow. induction n as [|n IH]; intros i Hn Hlen Hlines.
  - exists None. split; [reflexivity|]. intros q x cl Hq. lia.
  - cbn [find_clean_line]. unfold bind at 1.
    destruct (index_is_Some row i) as [x Hx]; [lia|].
    rewrite (load_order_run s i x md row Hrow Hx).
    unfold bind at 1, lift.
    destruct (Hlines i x) as [cl Hcl]; [lia|done|]. rewrite Hcl.
    case_decide as Hst.
    + exists (Some x). split; [reflexivity|].
      exists i, cl. repeat split; [lia..|done|done|done|].
      intros q' x' cl' Hq'. lia.
    + destruct (IH (i - 1)) as (res & Hrun & Hres); [lia..| |].
      { intros q y Hq. apply Hlines. lia. }
      exists res. split; [exact Hrun|].
      destruct res as [y|].
      * destruct Hres as (q & cl' & Hq & Hy & Hcl' & Hst' & Hbehind).
        exists q, cl'. repeat split; [lia..|done|done|done|].
        intros q' x' cl'' Hq' Hx' Hcl''.
        destruct (decide (q' = i)) as [->|Hne].
        -- congruence.
        -- apply (Hbehind q' x' cl''); [lia|done..].
      * intros q y cl' Hq Hy Hcl'.
        destruct (decide (q = i)) as [->|Hne].
        -- congruence.
        -- apply (Hres q y cl'); [lia|done..].
Qed.

(** C3, prefer-clean correctness.  On a well-formed policy
    [lru_prefer_clean_eviction_index] returns, without changing the
    policy.  When some line of the set is EXCLUSIVE the result is the
    local index of an EXCLUSIVE line, the one whose position in the order
    is nearest the tail: every entry behind it is a line that is not
    EXCLUSIVE.  When no line is EXCLUSIVE the result is the tail entry,
    which is what [lru_eviction_index] returns.  The set may be full or
    not. *)
Theorem prefer_clean_eviction (cs : cache_system) (set_idx : Z)
    (rp : lru_policy) (md : lru_metadata) :
  data rp = Some md ->
  well_formed cs md ->
  0 <= set_idx < num_sets md ->
  exists (r : Z) (row : list Z),
    index (order md) set_idx = Some row /\
    lru_prefer_clean_eviction_index cs set_idx rp = Some (r, rp) /\
    (has_clean_line cs set_idx ->
       exists q cl,
         index row q = Some r /\
         set_line cs set_idx r = Some cl /\ status cl = EXCLUSIVE /\
         forall q' x cl', q < q' -> index row q' = Some x ->
           set_line cs set_idx x = Some cl' -> status cl' <> EXCLUSIVE) /\
    (~ has_clean_line cs set_idx ->
       index row (associativity md - 1) = Some r /\
       lru_eviction_index cs set_idx rp = Some (r, rp)).
Proof.
  intros Hmd Hwf Hs. rewrite (policy_eta rp md Hmd).
  pose proof Hwf as [Ha Hn Hcs Hlen Haddr Hol Hord].
  destruct (well_formed_row cs md set_idx Hwf Hs)
    as (row & Hrow & Hperm & Hrowlen).
  assert (forall q x, index row q = Some x -> 0 <= x < associativity md)
    as Hentries.
  { intros q x [_ Hx]%index_Some.
    apply (Permutation_seqZ_elem row _ x Hperm).
    by apply list_elem_of_lookup_2 in Hx. }
  assert (forall x, 0 <= x < associativity md ->
            index (cache_lines cs)
              (uint32 (uint32 (set_idx * associativity md) + x))
            = set_line cs set_idx x) as Hglobal.
  { intros x Hx. unfold set_line.
    by rewrite (well_formed_global_idx cs md set_idx x Hwf Hs Hx), Hcs. }
  assert (uint32 (associativity md - 1) = associativity md - 1) as Htail.
  { apply uint32_small. unfold uint32_range, UINT32_MODULUS.
    unfold INT_MAX in Ha. lia. }
  destruct (index_is_Some row (associativity md - 1)) as [tl Htl]; [lia|].
  assert (lru_eviction_index cs set_idx (mk_replacement_policy (Some md))
          = Some (tl, mk_replacement_policy (Some md))) as Hlru.
  { unfold lru_eviction_index, bind, load_associativity. simpl.
    rewrite Htail. by apply load_order_run with (row := row). }
  destruct (find_clean_line_run cs set_idx (associativity md) md row
              (Z.to_nat (associativity md)) Hrow (associativity md - 1))
    as (res & Hrun & Hres); [lia..| |].
  { intros q x Hq Hx. rewrite (Hglobal x (Hentries q x Hx)).
    apply (well_formed_set_line cs md set_idx x Hwf Hs). by eapply Hentries. }
  assert (lru_prefer_clean_eviction_index cs set_idx
            (mk_replacement_policy (Some md))
          = match res with
            | Some x => Some (x, mk_replacement_policy (Some md))
            | None => Some (tl, mk_replacement_policy (Some md))
            end) as Heval.
  { unfold lru_prefer_clean_eviction_index, bind at 1, load_associativity.
    simpl. unfold bind at 1. rewrite Htail.
    rewrite int_of_uint32_small by lia.
    replace (associativity md - 1 + 1) with (associativity md) by lia.
    rewrite Hrun. destruct res; [reflexivity|].
    by apply load_order_run with (row := row). }
  destruct res as [x|].
  - destruct Hres as (q & cl & Hq & Hx & Hcl & Hst & Hbehind).
    pose proof (Hentries q x Hx) as Hxr. rewrite (Hglobal x Hxr) in Hcl.
    exists x, row. split; [done|]. split; [done|]. split.
    + intros _. exists q, cl. repeat split; [done..|].
      intros q' x' cl' Hq' Hx' Hcl'.
      pose proof (Hentries q' x' Hx') as Hxr'.
      apply (Hbehind q' x' cl'); [|done|by rewrite (Hglobal x' Hxr')].
      apply index_lt_length in Hx'. lia.
    + intros Hnone. exfalso. apply Hnone. exists x, cl.
      by rewrite Hcs.
  - exists tl, row. split; [done|]. split; [done|]. split.
    + intros (i & cl & Hi & Hcl & Hst). exfalso. rewrite Hcs in Hi.
      assert (i ∈ row) as [q Hq]%list_elem_of_lookup_1
        by (by apply (Permutation_seqZ_elem row _ i Hperm)).
      apply (Hres (Z.of_nat q) i cl); [| |by rewrite (Hglobal i Hi)|done].
      * apply lookup_lt_Some in Hq. lia.
      * by rewrite index_of_nat.
    + intros _. by split.
Qed.

Lemma prefer_clean_eviction_witness :
  exists (r : Z) (row : list Z),
    index (order scenario_metadata) 0 = Some row /\
    lru_prefer_clean_eviction_index scenario_cache 0 scenario_policy
      = Some (r, scenario_policy) /\
    (has_clean_line scenario_cache 0 ->
       exists q cl,
         index row q = Some r /\
         set_line scenario_cache 0 r = Some cl /\ status cl = EXCLUSIVE /\
         forall q' x cl', q < q' -> index row q' = Some x ->
           set_line scenario_cache 0 x = Some cl' ->
           status cl' <> EXCLUSIVE) /\
    (~ has_clean_line scenario_cache 0 ->
       index row (associativity scenario_metadata - 1) = Some r /\
       lru_eviction_index scenario_cache 0 scenario_policy
         = Some (r, scenario_policy)).
Proof.
  apply (prefer_clean_eviction scenario_cache 0 scenario_policy
           scenario_metadata).
  - reflexivity.
  - exact scenario_well_formed.
  - simpl. lia.
Defined.

(** Scenario B of the design document: order [3,2,1,0], lines 1 and 3
    clean: line 1 is evicted, not line 0. *)
Example scenario_B :
  lru_prefer_clean_eviction_index scenario_cache 0 scenario_policy
  = Some (1, scenario_policy).
Proof. reflexivity. Qed.

(** Scenario C: the same order on a set without a clean line. *)
Example scenario_C :
  lru_prefer_clean_eviction_index scenario_cache 1
    (mk_replacement_policy (Some
       (mk_lru_metadata 2 4 [ [0; 1; 2; 3]; [3; 2; 1; 0] ])))
  = Some (0, mk_replacement_policy (Some
       (mk_lru_metadata 2 4 [ [0; 1; 2; 3]; [3; 2; 1; 0] ]))).
Proof. reflexivity. Qed.

(* ===================================================================== *)
(** ** Scenario A *)
(* ===================================================================== *)

Lemma lookup_init_order_lt (a : Z) (n s : nat) :
  (s < n)%nat -> init_order a n !! s = Some (seqZ 0 a).
Proof.
  intros Hs. rewrite init_order_replicate, seqZ_to_nat.
  by apply lookup_replicate_2.
Qed.

Lemma new_well_formed (cs : cache_system) (sets a : Z) :
  0 < a <= INT_MAX + 1 -> 0 <= sets -> sets * a <= UINT32_MODULUS ->
  cache_of sets a cs ->
  well_formed cs (mk_lru_metadata sets a (init_order a (Z.to_nat sets))).
Proof.
  intros Ha Hsets Haddr [Hcs Hlen]. split; simpl; try done.
  - rewrite length_init_order. lia.
  - intros s row Hrow. simpl in *.
    by rewrite (lookup_init_order _ _ _ _ Hrow).
Qed.

(** One step of the scenario: the access of a tag that resolves to [i], on
    the policy whose order of the set is [row]. *)
Lemma scenario_step (cs : cache_system) (md : lru_metadata)
    (s t i : Z) (row row0 : list Z) (j : nat) :
  well_formed cs md -> 0 <= s < num_sets md ->
  order md !! Z.to_nat s = Some row0 -> row ≡ₚ row0 ->
  resolves_to cs s t i -> row !! j = Some i ->
  lru_cache_access cs s t
    (mk_replacement_policy (Some (with_order_row md (Z.to_nat s) row)))
  = Some (tt, mk_replacement_policy (Some
      (with_order_row md (Z.to_nat s) (move_to_front j i row)))).
Proof.
  intros Hwf Hs Hrow0 Hperm Hres Hj.
  rewrite (lru_cache_access_resolved cs _ s t i row j).
  - by rewrite with_order_row_twice.
  - by apply well_formed_with_order_row with (row := row0).
  - done.
  - done.
  - apply index_Some. split; [lia|].
    by apply order_with_order_row with (row := row0).
  - done.
Qed.

(** C4, scenario A.  An LRU policy is built for sets of four lines, so
    that the order of every set is [0,1,2,3].  Four accesses to one set
    follow, with tags that resolve to the local indices 0, 1, 2 and 3, each
    on the cache as it is at that call.  The order of the set is then
    [3,2,1,0], and [lru_eviction_index] returns 0, its tail entry. *)
Theorem scenario_A (cs0 cs1 cs2 cs3 : cache_system)
    (sets set_idx t0 t1 t2 t3 : Z) :
  0 <= set_idx < sets ->
  sets * 4 <= UINT32_MODULUS ->
  cache_of sets 4 cs0 -> cache_of sets 4 cs1 ->
  cache_of sets 4 cs2 -> cache_of sets 4 cs3 ->
  resolves_to cs0 set_idx t0 0 ->
  resolves_to cs1 set_idx t1 1 ->
  resolves_to cs2 set_idx t2 2 ->
  resolves_to cs3 set_idx t3 3 ->
  exists (rp0 rp4 : lru_policy) (md0 md4 : lru_metadata),
    lru_replacement_policy_new true true sets 4 = Some rp0 /\
    data rp0 = Some md0 /\
    index (order md0) set_idx = Some [0; 1; 2; 3] /\
    (lru_cache_access cs0 set_idx t0;;
     lru_cache_access cs1 set_idx t1;;
     lru_cache_access cs2 set_idx t2;;
     lru_cache_access cs3 set_idx t3) rp0 = Some (tt, rp4) /\
    data rp4 = Some md4 /\
    index (order md4) set_idx = Some [3; 2; 1; 0] /\
    index [3; 2; 1; 0] (associativity md4 - 1) = Some 0 /\
    forall cs, lru_eviction_index cs set_idx rp4 = Some (0, rp4).
Proof.
  intros Hs Haddr Hc0 Hc1 Hc2 Hc3 Hr0 Hr1 Hr2 Hr3.
  set (md0 := mk_lru_metadata sets 4 (init_order 4 (Z.to_nat sets))).
  assert (forall cs, cache_of sets 4 cs -> well_formed cs md0) as Hwf.
  { intros cs Hcs. apply new_well_formed; [unfold INT_MAX|..]; try done; lia. }
  assert (order md0 !! Z.to_nat set_idx = Some [0; 1; 2; 3]) as Hrow0.
  { simpl. apply (lookup_init_order_lt 4). lia. }
  assert (forall row : list Z, row ≡ₚ [0; 1; 2; 3] ->
            index (order (with_order_row md0 (Z.to_nat set_idx) row)) set_idx
            = Some row) as Hidx.
  { intros row _. apply index_Some. split; [lia|].
    by apply order_with_order_row with (row := [0; 1; 2; 3]). }
  assert (md0 = with_order_row md0 (Z.to_nat set_idx) [0; 1; 2; 3]) as Hmd0.
  { symmetry. by apply with_order_row_id. }
  exists (mk_replacement_policy (Some md0)),
    (mk_replacement_policy (Some
       (with_order_row md0 (Z.to_nat set_idx) [3; 2; 1; 0]))),
    md0, (with_order_row md0 (Z.to_nat set_idx) [3; 2; 1; 0]).
  split; [reflexivity|]. split; [reflexivity|].
  split; [apply index_Some; split; [lia|done]|].
  split.
  { unfold bind. rewrite Hmd0 at 1.
    rewrite (scenario_step cs0 md0 set_idx t0 0 [0; 1; 2; 3] [0; 1; 2; 3] 0)
      by first [done|by apply Hwf].
    change (move_to_front 0 0 [0; 1; 2; 3]) with [0; 1; 2; 3].
    rewrite (scenario_step cs1 md0 set_idx t1 1 [0; 1; 2; 3] [0; 1; 2; 3] 1)
      by first [done|by apply Hwf].
    change (move_to_front 1 1 [0; 1; 2; 3]) with [1; 0; 2; 3].
    rewrite (scenario_step cs2 md0 set_idx t2 2 [1; 0; 2; 3] [0; 1; 2; 3] 2)
      by first [done|by apply Hwf|apply (bool_decide_unpack _); by vm_compute].
    change (move_to_front 2 2 [1; 0; 2; 3]) with [2; 1; 0; 3].
    rewrite (scenario_step cs3 md0 set_idx t3 3 [2; 1; 0; 3] [0; 1; 2; 3] 3)
      by first [done|by apply Hwf|apply (bool_decide_unpack _); by vm_compute].
    reflexivity. }
  split; [reflexivity|].
  split; [apply Hidx, (bool_decide_unpack _); by vm_compute|].
  split; [reflexivity|].
  intros cs. unfold lru_eviction_index, bind, load_associativity. simpl.
  apply load_order_run with (row := [3; 2; 1; 0]); [|reflexivity].
  apply Hidx, (bool_decide_unpack _). by vm_compute.
Qed.

Lemma scenario_A_witness :
  exists (rp0 rp4 : lru_policy) (md0 md4 : lru_metadata),
    lru_replacement_policy_new true true 2 4 = Some rp0 /\
    data rp0 = Some md0 /\
    index (order md0) 0 = Some [0; 1; 2; 3] /\
    (lru_cache_access scenario_cache 0 10;;
     lru_cache_access scenario_cache 0 11;;
     lru_cache_access scenario_cache 0 12;;
     lru_cache_access scenario_cache 0 13) rp0 = Some (tt, rp4) /\
    data rp4 = Some md4 /\
    index (order md4) 0 = Some [3; 2; 1; 0] /\
    index [3; 2; 1; 0] (associativity md4 - 1) = Some 0 /\
    forall cs, lru_eviction_index cs 0 rp4 = Some (0, rp4).
Proof.
  apply (scenario_A scenario_cache scenario_cache scenario_cache
           scenario_cache 2 0 10 11 12 13).
  - lia.
  - unfold UINT32_MODULUS. lia.
  - exact scenario_cache_of.
  - exact scenario_cache_of.
  - exact scenario_cache_of.
  - exact scenario_cache_of.
  - exact scenario_resolves_10.
  - exact scenario_resolves_11.
  - exact scenario_resolves_12.
  - exact scenario_resolves_13.
Defined.

(** The same run, evaluated. *)
Example scenario_A_run :
  (lru_cache_access scenario_cache 0 10;;
   lru_cache_access scenario_cache 0 11;;
   lru_cache_access scenario_cache 0 12;;
   lru_cache_access scenario_cache 0 13;;
   lru_eviction_index scenario_cache 0)
    (mk_replacement_policy (Some
       (mk_lru_metadata 2 4 [ [0; 1; 2; 3]; [0; 1; 2; 3] ])))
  = Some (0, mk_replacement_policy (Some
       (mk_lru_metadata 2 4 [ [3; 2; 1; 0]; [0; 1; 2; 3] ]))).
Proof. reflexivity. Qed.

(* ===================================================================== *)
(** ** Purity of the eviction functions *)
(* ===================================================================== *)

Lemma rand_eviction_index_pure (w : Z) (cs : cache_system) (s r : Z)
    (rp rp' : rand_policy) :
  rand_eviction_index w cs s rp = Some (r, rp') -> rp' = rp.
Proof.
  unfold rand_eviction_index. destruct (data rp) as [md|]; [|discriminate].
  case_decide; [discriminate|]. by intros [= _ <-].
Qed.

Lemma rand_eviction_index_sodium_pure (words : list Z) (cs : cache_system)
    (s r : Z) (rp rp' : rand_policy) :
  rand_eviction_index_sodium words cs s rp = Some (r, rp') -> rp' = rp.
Proof.
  unfold rand_eviction_index_sodium.
  destruct (data rp) as [md|]; [|discriminate].
  destruct (randombytes_uniform _ _); [|discriminate]. by intros [= _ <-].
Qed.

Lemma lru_eviction_index_total (cs : cache_system) (md : lru_metadata)
    (s : Z) :
  well_formed cs md -> 0 <= s < num_sets md ->
  exists r, lru_eviction_index cs s (mk_replacement_policy (Some md))
            = Some (r, mk_replacement_policy (Some md)).
Proof.
  intros Hwf Hs. pose proof Hwf as [Ha _ _ _ _ _ _].
  destruct (well_formed_row cs md s Hwf Hs) as (row & Hrow & _ & Hlen).
  destruct (index_is_Some row (associativity md - 1)) as [tl Htl]; [lia|].
  exists tl. unfold lru_eviction_index, bind, load_associativity. simpl.
  rewrite uint32_small.
  - by apply load_order_run with (row := row).
  - unfold uint32_range, UINT32_MODULUS. unfold INT_MAX in Ha. lia.
Qed.

(** C5, purity of the eviction functions.  A call of the eviction function
    of any of the three policies that returns leaves the policy, and so
    its metadata, as it was: [num_sets], [associativity] and every order
    table.  Two calls of [lru_eviction_index] in a row on the same set
    return the same index; on a well-formed policy they do return. *)
Theorem eviction_index_read_only :
  (forall k cs set_idx r (rp rp' : lru_policy),
     eviction_index k cs set_idx rp = Some (r, rp') -> rp' = rp) /\
  (forall w cs set_idx r (rp rp' : rand_policy),
     rand_eviction_index w cs set_idx rp = Some (r, rp') -> rp' = rp) /\
  (forall words cs set_idx r (rp rp' : rand_policy),
     rand_eviction_index_sodium words cs set_idx rp = Some (r, rp') ->
     rp' = rp) /\
  (forall cs set_idx r1 r2 (rp rp' : lru_policy),
     lru_eviction_index_twice cs set_idx rp = Some ((r1, r2), rp') ->
     r1 = r2 /\ rp' = rp) /\
  (forall cs set_idx (rp : lru_policy) md,
     data rp = Some md -> well_formed cs md ->
     0 <= set_idx < num_sets md ->
     exists r, lru_eviction_index_twice cs set_idx rp = Some ((r, r), rp)).
Proof.
  split; [apply eviction_index_pure|].
  split; [apply rand_eviction_index_pure|].
  split; [apply rand_eviction_index_sodium_pure|].
  split.
  - intros cs s r1 r2 rp rp'. unfold lru_eviction_index_twice, bind at 1.
    destruct (lru_eviction_index cs s rp) as [[a rp1]|] eqn:H1;
      [|discriminate].
    pose proof (lru_eviction_index_pure _ _ _ _ _ H1) as ->.
    unfold bind at 1. rewrite H1. by intros [= <- <- <-].
  - intros cs s rp md Hmd Hwf Hs. rewrite (policy_eta rp md Hmd).
    destruct (lru_eviction_index_total cs md s Hwf Hs) as [r Hr].
    exists r. unfold lru_eviction_index_twice, bind. by rewrite !Hr.
Qed.

Lemma eviction_index_read_only_witness :
  (forall r rp',
     eviction_index LRU_PREFER_CLEAN scenario_cache 0 scenario_policy
       = Some (r, rp') -> rp' = scenario_policy) /\
  (exists r, lru_eviction_index_twice scenario_cache 0 scenario_policy
             = Some ((r, r), scenario_policy)).
Proof.
  destruct eviction_index_read_only as (Hpure & _ & _ & _ & Htwice).
  split.
  - intros r rp'. apply Hpure.
  - apply (Htwice scenario_cache 0 scenario_policy scenario_metadata).
    + reflexivity.
    + exact scenario_well_formed.
    + simpl. lia.
Defined.

(* ===================================================================== *)
(** ** RAND: what the remainder does to the draws *)
(* ===================================================================== *)

Lemma filter_ext_elem {A : Type} (P Q : A -> Prop)
    `{!forall x, Decision (P x)} `{!forall x, Decision (Q x)} (l : list A) :
  (forall x, x ∈ l -> P x <-> Q x) -> filter P l = filter Q l.
Proof.
  induction l as [|x l IH]; intros Hext; [done|].
  rewrite !filter_cons.
  rewrite IH by (intros y Hy; apply Hext; by right).
  pose proof (Hext x (list_elem_of_here x l)) as Hx.
  destruct (decide (P x)) as [HP|HP], (decide (Q x)) as [HQ|HQ]; try done;
    tauto.
Qed.

Lemma succ_div_mod (n k : Z) :
  0 <= n -> 0 < k ->
  (n mod k = k - 1 /\ (n + 1) / k = n / k + 1 /\ (n + 1) mod k = 0) \/
  (n mod k < k - 1 /\ (n + 1) / k = n / k /\ (n + 1) mod k = n mod k + 1).
Proof.
  intros Hn Hk.
  pose proof (Z.div_mod n k ltac:(lia)) as Hdm.
  pose proof (Z.mod_pos_bound n k Hk) as Hb.
  destruct (decide (n mod k = k - 1)) as [He|Hne]; [left|right].
  - split; [done|].
    destruct (Z.div_mod_unique k ((n + 1) / k) (n / k + 1) ((n + 1) mod k) 0)
      as [Hq Hr]; [left; apply Z.mod_pos_bound; lia|left; lia| |by split].
    rewrite <- Z.div_mod by lia. lia.
  - split; [lia|].
    destruct (Z.div_mod_unique k ((n + 1) / k) (n / k)
                ((n + 1) mod k) (n mod k + 1))
      as [Hq Hr]; [left; apply Z.mod_pos_bound; lia|left; lia| |by split].
    rewrite <- Z.div_mod by lia. lia.
Qed.

Lemma length_filter_mod_seqZ (k j : Z) (n : nat) :
  0 < k -> 0 <= j < k ->
  Z.of_nat (length (filter (fun r => r mod k = j) (seqZ 0 (Z.of_nat n))))
  = Z.of_nat n / k + (if decide (j < Z.of_nat n mod k) then 1 else 0).
Proof.
  intros Hk Hj. induction n as [|n IH].
  - simpl. rewrite Z.div_0_l, Z.mod_0_l by lia. by rewrite decide_False by lia.
  - rewrite seqZ_S, filter_app, length_app, Nat2Z.inj_add, IH.
    rewrite (filter_singleton _ (0 + Z.of_nat n) []).
    replace (Z.of_nat (S n)) with (Z.of_nat n + 1) by lia.
    rewrite Z.add_0_l.
    destruct (succ_div_mod (Z.of_nat n) k) as [(Hm & -> & ->)|(Hm & -> & ->)];
      [lia|lia| |].
    + repeat case_decide; simpl; lia.
    + repeat case_decide; simpl; lia.
Qed.

Lemma filter_none {A : Type} (P : A -> Prop) `{!forall x, Decision (P x)}
    (l : list A) :
  (forall x, x ∈ l -> ~ P x) -> filter P l = [].
Proof.
  induction l as [|x l IH]; intros Hnone; [done|].
  rewrite filter_cons_False by (apply Hnone; by left).
  apply IH. intros y Hy. apply Hnone. by right.
Qed.

Lemma rand_eviction_index_value (w : Z) (cs : cache_system) (s sets k : Z) :
  k <> 0 ->
  rand_eviction_index w cs s
    (mk_replacement_policy (Some (mk_rand_metadata sets k)))
  = Some (uint32_of_int w mod k,
          mk_replacement_policy (Some (mk_rand_metadata sets k))).
Proof.
  intros Hk. unfold rand_eviction_index. simpl. by rewrite decide_False.
Qed.

(** How many values of [rand()] lead [rand_eviction_index] to [j]. *)
Lemma rand_draws_returning_count (rand_max sets k j : Z) :
  0 <= rand_max < UINT32_MODULUS -> 0 < k -> 0 <= j < k ->
  Z.of_nat (rand_draws_returning rand_max
              (mk_replacement_policy (Some (mk_rand_metadata sets k))) j)
  = (rand_max + 1) / k
    + (if decide (j < (rand_max + 1) mod k) then 1 else 0).
Proof.
  intros Hmax Hk Hj. unfold rand_draws_returning.
  rewrite (filter_ext_elem _ (fun r => r mod k = j)).
  - rewrite <- (Z2Nat.id (rand_max + 1)) at 1 by lia.
    rewrite length_filter_mod_seqZ by done.
    by rewrite Z2Nat.id by lia.
  - intros r Hr%elem_of_seqZ.
    rewrite rand_eviction_index_value by lia. simpl.
    rewrite uint32_of_int_small by (unfold uint32_range; lia).
    split; [by intros [= ->]|by intros ->].
Qed.

(** The words that [randombytes_uniform] accepts are spread evenly. *)
Lemma accepted_words_count (N k j : Z) :
  0 <= N -> 0 < k -> 0 <= j < k ->
  Z.of_nat (length (filter (fun w => N mod k <= w /\ w mod k = j) (seqZ 0 N)))
  = N / k.
Proof.
  intros HN Hk Hj.
  pose proof (Z.mod_pos_bound N k Hk) as Hm.
  pose proof (Z.mod_le N k HN Hk) as Hle.
  pose proof (length_filter_mod_seqZ k j (Z.to_nat N) Hk Hj) as Hall.
  pose proof (length_filter_mod_seqZ k j (Z.to_nat (N mod k)) Hk Hj) as Hlow.
  rewrite !Z2Nat.id in Hall, Hlow by lia.
  rewrite Z.mod_mod, (Z.div_small (N mod k) k) in Hlow by lia.
  assert (seqZ 0 N = seqZ 0 (N mod k) ++ seqZ (N mod k) (N - N mod k))
    as Hsplit.
  { rewrite <- (Z.add_0_l (N mod k)) at 3. rewrite <- seqZ_app by lia.
    f_equal. lia. }
  rewrite Hsplit, filter_app, length_app, Nat2Z.inj_add, Hlow in Hall.
  rewrite Hsplit, filter_app, length_app.
  rewrite (filter_none _ (seqZ 0 (N mod k)))
    by (intros w Hw%elem_of_seqZ; lia).
  rewrite (filter_ext_elem _ (fun r => r mod k = j) (seqZ _ _))
    by (intros w Hw%elem_of_seqZ; split; [tauto|split; [lia|done]]).
  simpl. lia.
Qed.

Lemma sodium_words_returning_count (k j : Z) :
  2 <= k -> 0 <= j < k ->
  Z.of_nat (sodium_words_returning k j) = UINT32_MODULUS / k.
Proof.
  intros Hk Hj. unfold sodium_words_returning.
  rewrite <- (accepted_words_count UINT32_MODULUS k j)
    by (unfold UINT32_MODULUS; lia).
  do 2 f_equal. apply filter_ext_elem. intros w Hw.
  unfold randombytes_uniform_accept.
  rewrite decide_False by lia. case_decide; split.
  - discriminate.
  - lia.
  - intros [= <-]. split; [lia|done].
  - by intros [_ ->].
Qed.

(** Whenever the associativity does not divide the number of values of
    [rand()], index 0 is drawn from one value more than the last index. *)
Lemma rand_draws_returning_bias (rand_max sets k : Z) :
  0 <= rand_max < UINT32_MODULUS -> 0 < k ->
  (rand_max + 1) mod k <> 0 ->
  Z.of_nat (rand_draws_returning rand_max
              (mk_replacement_policy (Some (mk_rand_metadata sets k))) 0)
  = Z.of_nat (rand_draws_returning rand_max
                (mk_replacement_policy (Some (mk_rand_metadata sets k)))
                (k - 1)) + 1.
Proof.
  intros Hmax Hk Hrem.
  pose proof (Z.mod_pos_bound (rand_max + 1) k Hk) as Hm.
  rewrite !rand_draws_returning_count by lia.
  rewrite decide_True, decide_False by lia. lia.
Qed.

Lemma rand_eviction_index_ignores_cache (w : Z) (cs cs' : cache_system)
    (s s' : Z) (rp : rand_policy) :
  rand_eviction_index w cs s rp = rand_eviction_index w cs' s' rp.
Proof. reflexivity. Qed.

Lemma rand_eviction_index_range (w : Z) (cs : cache_system) (s r : Z)
    (rp rp' : rand_policy) (md : rand_metadata) :
  data rp = Some md -> 0 < rand_associativity md ->
  rand_eviction_index w cs s rp = Some (r, rp') ->
  0 <= r < rand_associativity md.
Proof.
  intros Hmd Ha. unfold rand_eviction_index. rewrite Hmd.
  rewrite decide_False by lia. intros [= <- _]. by apply Z.mod_pos_bound.
Qed.

(** Scenario D: with one line per set the result is 0. *)
Lemma rand_eviction_index_single_line (w : Z) (cs : cache_system)
    (s sets : Z) :
  rand_eviction_index w cs s
    (mk_replacement_policy (Some (mk_rand_metadata sets 1)))
  = Some (0, mk_replacement_policy (Some (mk_rand_metadata sets 1))).
Proof.
  rewrite rand_eviction_index_value by lia. by rewrite Z.mod_1_r.
Qed.

Lemma rand_eviction_index_sodium_single_line (w : Z) (words : list Z)
    (cs : cache_system) (s sets : Z) :
  rand_eviction_index_sodium (w :: words) cs s
    (mk_replacement_policy (Some (mk_rand_metadata sets 1)))
  = Some (0, mk_replacement_policy (Some (mk_rand_metadata sets 1))).
Proof. reflexivity. Qed.

(** C8, on [rand_eviction_index] of src/replacement_policies.c, which
    returns [rand() % assoc].  With three lines per set and
    [RAND_MAX = 2147483647], of the 2^31 values of [rand()] 715827883 lead
    to index 0 and 715827882 to index 2: the draw is not uniform. *)
Theorem rand_eviction_index_modulo_bias :
  Z.of_nat (rand_draws_returning 2147483647
              (mk_replacement_policy (Some (mk_rand_metadata 1 3))) 0)
  = 715827883 /\
  Z.of_nat (rand_draws_returning 2147483647
              (mk_replacement_policy (Some (mk_rand_metadata 1 3))) 2)
  = 715827882.
Proof.
  rewrite !rand_draws_returning_count by (unfold UINT32_MODULUS; lia).
  split; reflexivity.
Qed.

(* ===================================================================== *)
(** ** Cleanup *)
(* ===================================================================== *)

Lemma free_order_rows_total (md : lru_metadata) (n : nat) :
  forall i,
    0 <= i -> i + Z.of_nat n <= Z.of_nat (length (order md)) ->
    exists freed, free_order_rows md i n = Some freed /\ length freed = n.
Proof.
  induction n as [|n IH]; intros i Hi Hn; simpl; [by eexists|].
  destruct (index_is_Some (order md) i) as [row ->]; [lia|].
  destruct (IH (i + 1)) as (freed & -> & Hlen); [lia..|].
  eexists. split; [reflexivity|]. simpl. by rewrite Hlen.
Qed.

(** A policy with one order table per set is released, with one call of
    [free] per order table and two more. *)
Lemma cleanup_returns (k : recency_kind) (md : lru_metadata) :
  Z.of_nat (length (order md)) = num_sets md ->
  exists freed,
    cleanup k (Some (mk_replacement_policy (Some md)))
    = Some (freed, Some (mk_replacement_policy None)) /\
    Z.of_nat (length freed) = num_sets md + 2.
Proof.
  intros Hlen.
  destruct (free_order_rows_total md (Z.to_nat (num_sets md)) 0)
    as (freed & Hfreed & Hn); [lia..|].
  exists (freed ++ [OrderTable; Metadata]). split.
  - destruct k; simpl; by rewrite Hfreed.
  - rewrite length_app, Hn. simpl. lia.
Qed.

(** A second call of the cleanup function finds [data] cleared, frees
    nothing and changes nothing. *)
Lemma cleanup_idempotent (k : recency_kind) (rp : lru_policy)
    (freed : list block) (after : option lru_policy) :
  cleanup k (Some rp) = Some (freed, after) ->
  exists rp', after = Some rp' /\ data rp' = None /\
    cleanup k after = Some ([], after).
Proof.
  destruct rp as [[md|]].
  - destruct k; simpl;
      (destruct (free_order_rows md 0 _); [|discriminate]);
      intros [= <- <-]; eexists; by repeat split.
  - destruct k; simpl; intros [= <- <-]; eexists; by repeat split.
Qed.

Lemma rand_cleanup_idempotent (rp : option rand_policy) :
  exists freed after,
    rand_replacement_policy_cleanup rp = Some (freed, after) /\
    (forall rp', after = Some rp' -> data rp' = None) /\
    rand_replacement_policy_cleanup after = Some ([], after).
Proof.
  destruct rp as [[[md|]]|]; simpl; do 2 eexists;
    (split; [reflexivity|]); split; try reflexivity;
    by intros rp' [= <-].
Qed.

(** C9, release is idempotent and safe on an instance without metadata.
    The cleanup functions of LRU and LRU_PREFER_CLEAN are reached through
    the field [cleanup] of a policy only, so with a policy; for them and
    for RAND: on a policy whose [data] is null the call returns, frees
    nothing and leaves the policy as it is; on a policy with its metadata,
    one order per set, the call returns and clears [data]; and after any
    call that returns [data] is null, so that a second call frees nothing
    and changes nothing.  The cleanup of RAND also tests the pointer to
    the policy, and does nothing when it is null. *)
Theorem release_is_idempotent :
  (forall k (rp : lru_policy),
     data rp = None -> cleanup k (Some rp) = Some ([], Some rp)) /\
  (forall k (rp : lru_policy) md,
     data rp = Some md ->
     Z.of_nat (length (order md)) = num_sets md ->
     exists freed,
       cleanup k (Some rp)
       = Some (freed, Some (mk_replacement_policy None)) /\
       cleanup k (Some (mk_replacement_policy None))
       = Some ([], Some (mk_replacement_policy None))) /\
  (forall k (rp : lru_policy) freed after,
     cleanup k (Some rp) = Some (freed, after) ->
     exists rp', after = Some rp' /\ data rp' = None /\
       cleanup k after = Some ([], after)) /\
  (forall rp : rand_policy,
     data rp = None ->
     rand_replacement_policy_cleanup (Some rp) = Some ([], Some rp)) /\
  (forall rp : option rand_policy,
     exists freed after,
       rand_replacement_policy_cleanup rp = Some (freed, after) /\
       (forall rp', after = Some rp' -> data rp' = None) /\
       rand_replacement_policy_cleanup after = Some ([], after)) /\
  rand_replacement_policy_cleanup None = Some ([], None).
Proof.
  split; [|split; [|split; [|split; [|split]]]].
  - intros k [d] Hd. simpl in Hd. subst d. by destruct k.
  - intros k rp md Hmd Hlen. rewrite (policy_eta rp md Hmd).
    destruct (cleanup_returns k md Hlen) as (freed & Hrun & _).
    exists freed. split; [done|]. by destruct k.
  - apply cleanup_idempotent.
  - intros [d] Hd. simpl in Hd. by subst d.
  - apply rand_cleanup_idempotent.
  - reflexivity.
Qed.

Lemma release_is_idempotent_witness :
  cleanup LRU (Some (mk_replacement_policy None))
  = Some ([], Some (mk_replacement_policy None)) /\
  (exists freed,
     cleanup LRU_PREFER_CLEAN (Some scenario_policy)
     = Some (freed, Some (mk_replacement_policy None)) /\
     cleanup LRU_PREFER_CLEAN (Some (mk_replacement_policy None))
     = Some ([], Some (mk_replacement_policy None))) /\
  (exists rp' : lru_policy, Some (mk_replacement_policy None) = Some rp' /\
     data rp' = None /\
     cleanup LRU (Some (mk_replacement_policy None))
     = Some ([], Some (mk_replacement_policy None))).
Proof.
  destruct release_is_idempotent as (Hnull & Hlive & Hagain & _).
  split; [|split].
  - apply Hnull. reflexivity.
  - apply (Hlive LRU_PREFER_CLEAN scenario_policy scenario_metadata);
      reflexivity.
  - apply (Hagain LRU scenario_policy
             [OrderRow 0; OrderRow 1; OrderTable; Metadata]).
    reflexivity.
Defined.


(* ===================================================================== *)
(** ** The order after an access, in closed form *)
(* ===================================================================== *)

Lemma filter_all {A : Type} (P : A -> Prop) `{!forall x, Decision (P x)}
    (l : list A) :
  (forall x, x ∈ l -> P x) -> filter P l = l.
Proof.
  induction l as [|x l IH]; intros Hall; [done|].
  rewrite filter_cons_True by (apply Hall; by left).
  f_equal. apply IH. intros y Hy. apply Hall. by right.
Qed.

(** On an order without duplicates, moving the entry at position [p] to the
    front leaves the other entries in the order they had. *)
Lemma move_to_front_touch (p : nat) (i : Z) (row : list Z) :
  NoDup row -> row !! p = Some i -> move_to_front p i row = touch row i.
Proof.
  intros Hnd Hp. unfold move_to_front, touch. f_equal.
  rewrite <- (take_drop_middle row p i Hp) at 3.
  rewrite <- (take_drop_middle row p i Hp) in Hnd.
  apply NoDup_app in Hnd as (_ & Hsep & [Hnotin _]%NoDup_cons).
  rewrite filter_app, filter_cons_False by (intros Hne; by apply Hne).
  rewrite !filter_all; [done| |].
  - intros x Hx ->. by apply Hnotin.
  - intros x Hx ->. apply (Hsep i Hx). by left.
Qed.

Lemma touch_Permutation (row : list Z) (i : Z) :
  NoDup row -> i ∈ row -> touch row i ≡ₚ row.
Proof.
  intros Hnd [p Hp]%list_elem_of_lookup_1.
  rewrite <- (move_to_front_touch p i row Hnd Hp).
  by apply move_to_front_Permutation.
Qed.

(** [lru_cache_access] on a tag that resolves to line [i], in closed form. *)
Lemma lru_cache_access_touch (cs : cache_system) (md : lru_metadata)
    (s t i : Z) (row : list Z) :
  well_formed cs md -> 0 <= s < num_sets md ->
  resolves_to cs s t i ->
  index (order md) s = Some row ->
  lru_cache_access cs s t (mk_replacement_policy (Some md))
  = Some (tt, mk_replacement_policy (Some
      (with_order_row md (Z.to_nat s) (touch row i)))).
Proof.
  intros Hwf Hs Hres Hrow.
  pose proof Hrow as [_ Hrow']%index_Some.
  pose proof (wf_order _ _ Hwf _ _ Hrow') as Hperm.
  pose proof (Permutation_seqZ_NoDup _ _ Hperm) as Hnd.
  assert (i ∈ row) as [j Hj]%list_elem_of_lookup_1.
  { apply (Permutation_seqZ_elem row (associativity md) i Hperm).
    destruct Hres as [Hi _]. by rewrite (wf_cache_associativity _ _ Hwf) in Hi. }
  rewrite (lru_cache_access_resolved cs md s t i row j) by done.
  by rewrite (move_to_front_touch j i row Hnd Hj).
Qed.

(** X1, relative order.  On a well-formed policy, after an access whose tag
    resolves to line [i] the order of the set is [i] followed by the other
    entries of the former order, in the order they had; nothing else of the
    policy has changed. *)
Theorem cache_access_keeps_relative_order (k : recency_kind)
    (cs : cache_system) (set_idx t i : Z) (rp : lru_policy)
    (md : lru_metadata) :
  data rp = Some md ->
  well_formed cs md ->
  0 <= set_idx < num_sets md ->
  resolves_to cs set_idx t i ->
  exists row,
    index (order md) set_idx = Some row /\
    cache_access k cs set_idx t rp
    = Some (tt, mk_replacement_policy (Some
        (with_order_row md (Z.to_nat set_idx)
           (i :: filter (fun x => x <> i) row)))).
Proof.
  intros Hmd Hwf Hs Hres.
  destruct (well_formed_row cs md set_idx Hwf Hs) as (row & Hrow & _ & _).
  exists row. split; [done|].
  rewrite cache_access_unfold, (policy_eta rp md Hmd).
  by apply lru_cache_access_touch.
Qed.

Lemma cache_access_keeps_relative_order_witness :
  exists row,
    index (order scenario_metadata) 0 = Some row /\
    cache_access LRU scenario_cache 0 12 scenario_policy
    = Some (tt, mk_replacement_policy (Some
        (with_order_row scenario_metadata (Z.to_nat 0)
           (2 :: filter (fun x => x <> 2) row)))).
Proof.
  apply (cache_access_keeps_relative_order LRU scenario_cache 0 12 2
           scenario_policy scenario_metadata).
  - reflexivity.
  - exact scenario_well_formed.
  - simpl. lia.
  - exact scenario_resolves_12.
Defined.

Lemma lru_eviction_index_run (cs : cache_system) (md : lru_metadata)
    (s tl : Z) (row : list Z) :
  0 < associativity md <= INT_MAX + 1 ->
  index (order md) s = Some row ->
  index row (associativity md - 1) = Some tl ->
  lru_eviction_index cs s (mk_replacement_policy (Some md))
  = Some (tl, mk_replacement_policy (Some md)).
Proof.
  intros Ha Hrow Htl.
  unfold lru_eviction_index, bind, load_associativity. simpl.
  rewrite uint32_small.
  - by apply load_order_run with (row := row).
  - unfold uint32_range, UINT32_MODULUS. unfold INT_MAX in Ha. lia.
Qed.

(** X2, the line just accessed is not the next victim of LRU.  On a
    well-formed policy with at least two lines per set, an access whose tag
    resolves to line [i] followed by [lru_eviction_index] on the same set
    returns an index other than [i]. *)
Theorem lru_does_not_evict_accessed_line (cs : cache_system)
    (set_idx t i : Z) (rp : lru_policy) (md : lru_metadata) :
  data rp = Some md ->
  well_formed cs md ->
  0 <= set_idx < num_sets md ->
  resolves_to cs set_idx t i ->
  2 <= associativity md ->
  exists r rp',
    (lru_cache_access cs set_idx t;; lru_eviction_index cs set_idx) rp
    = Some (r, rp') /\
    r <> i /\ 0 <= r < associativity md.
Proof.
  intros Hmd Hwf Hs Hres Ha. rewrite (policy_eta rp md Hmd).
  destruct (well_formed_row cs md set_idx Hwf Hs)
    as (row & Hrow & Hperm & Hlen).
  pose proof Hrow as [Hs0 Hrow']%index_Some.
  pose proof (Permutation_seqZ_NoDup _ _ Hperm) as Hnd.
  assert (i ∈ row) as Hin.
  { apply (Permutation_seqZ_elem row (associativity md) i Hperm).
    destruct Hres as [Hi _]. by rewrite (wf_cache_associativity _ _ Hwf) in Hi. }
  pose proof (touch_Permutation row i Hnd Hin) as Hperm'.
  assert (Z.of_nat (length (touch row i)) = associativity md) as Hlen'
    by (by rewrite Hperm').
  destruct (index_is_Some (touch row i) (associativity md - 1)) as [tl Htl];
    [lia|].
  exists tl, (mk_replacement_policy (Some
    (with_order_row md (Z.to_nat set_idx) (touch row i)))).
  split; [|split].
  - unfold bind. rewrite (lru_cache_access_touch cs md set_idx t i row) by done.
    apply lru_eviction_index_run with (row := touch row i);
      [apply Hwf| |done].
    apply index_Some. split; [done|].
    by apply order_with_order_row with (row := row).
  - intros ->. apply index_Some in Htl as [_ Htl].
    assert (NoDup (touch row i)) as Hnd' by (by rewrite Hperm').
    assert (touch row i !! 0%nat = Some i) as Hhead by reflexivity.
    pose proof (NoDup_lookup _ _ _ _ Hnd' Htl Hhead). lia.
  - apply index_Some in Htl as [_ Htl].
    apply (Permutation_seqZ_elem row (associativity md) tl Hperm).
    rewrite <- Hperm'. by apply list_elem_of_lookup_2 in Htl.
Qed.

Lemma lru_does_not_evict_accessed_line_witness :
  exists r rp',
    (lru_cache_access scenario_cache 0 10;;
     lru_eviction_index scenario_cache 0) scenario_policy
    = Some (r, rp') /\
    r <> 0 /\ 0 <= r < associativity scenario_metadata.
Proof.
  apply (lru_does_not_evict_accessed_line scenario_cache 0 10 0
           scenario_policy scenario_metadata).
  - reflexivity.
  - exact scenario_well_formed.
  - simpl. lia.
  - exact scenario_resolves_10.
  - simpl. lia.
Defined.

(** What a call of [lru_cache_access] that changes the policy has found:
    the first loop has left a non-negative [accessed_line_idx], and the
    entry moved to the front is that index. *)
Lemma lru_cache_access_moved (cs : cache_system) (s t : Z)
    (rp rp' : lru_policy) (u : unit) :
  (forall md, data rp = Some md -> associativity md <= UINT32_MODULUS) ->
  lru_cache_access cs s t rp = Some (u, rp') ->
  rp' = rp \/
  exists md row p r,
    find_accessed_line cs (uint32 (s * cs_associativity cs)) t 0
      (Z.to_nat (cs_associativity cs)) = Some r /\
    0 <= r /\ 0 < associativity md /\
    data rp = Some md /\ index (order md) s = Some row /\
    row !! p = Some (uint32_of_int r) /\
    rp' = mk_replacement_policy (Some
            (with_order_row md (Z.to_nat s)
               (move_to_front p (uint32_of_int r) row))).
Proof.
  intros Hrange. unfold lru_cache_access, bind at 1, lift.
  destruct (find_accessed_line _ _ _ _ _) as [r|] eqn:Hfound; [|discriminate].
  case_decide as Hr; [intros [= <- <-]; by left|].
  unfold bind at 1, load_associativity.
  destruct (data rp) as [md|] eqn:Hmd; [|discriminate].
  unfold bind at 1.
  destruct (find_position _ _ _ _ _) as [[p rp1]|] eqn:Hfind; [|discriminate].
  apply find_position_sound in Hfind as [-> Hp].
  case_decide as Hneg; [intros [= <- <-]; by left|].
  destruct Hp as [->|(j & md' & row & Hj & -> & Hmd' & Hrow & Hat)]; [lia|].
  assert (md' = md) as -> by congruence.
  destruct (int_of_uint32_nonneg j) as [Hjj Hjmax]; [|lia|].
  { specialize (Hrange md eq_refl). unfold uint32_range. lia. }
  rewrite Hjj. rewrite (policy_eta rp md Hmd).
  replace j with (Z.of_nat (Z.to_nat j)) at 1 by lia.
  pose proof Hat as [_ Hat']%index_Some.
  rewrite (move_entry_run s _ (Z.to_nat j) md row Hrow)
    by (by apply lookup_lt_Some in Hat').
  intros [= <- <-]. right.
  exists md, row, (Z.to_nat j), r. repeat split; try done; lia.
Qed.

(** X3, an access repeated changes nothing more.  Whatever the cache and
    the arguments, when a call of the access function of LRU or
    LRU_PREFER_CLEAN returns, the same call on the policy it leaves returns
    and leaves that policy as it is. *)
Theorem cache_access_idempotent (k : recency_kind) (cs : cache_system)
    (set_idx t : Z) (rp rp' : lru_policy) (u : unit) :
  (forall md, data rp = Some md -> associativity md <= UINT32_MODULUS) ->
  cache_access k cs set_idx t rp = Some (u, rp') ->
  cache_access k cs set_idx t rp' = Some (tt, rp').
Proof.
  rewrite cache_access_unfold. intros Hrange Hrun.
  pose proof Hrun as Hrun'.
  apply lru_cache_access_moved in Hrun'
    as [->|(md & row & p & r & Hfound & Hr & Ha & Hmd & Hrow & Hp & ->)];
    [by destruct u| |done].
  pose proof Hrow as [Hs Hrow']%index_Some.
  set (x := uint32_of_int r).
  set (row' := move_to_front p x row).
  assert (index (order (with_order_row md (Z.to_nat set_idx) row')) set_idx
          = Some row') as Hrow1.
  { apply index_Some. split; [done|].
    by apply order_with_order_row with (row := row). }
  unfold lru_cache_access, bind at 1, lift. rewrite Hfound.
  rewrite decide_False by lia.
  unfold bind at 1, load_associativity. simpl. unfold bind at 1.
  destruct (Z.to_nat (associativity md)) as [|n] eqn:Hn; [lia|].
  cbn [find_position]. unfold bind at 1.
  rewrite (load_order_run set_idx 0 x _ row' Hrow1) by reflexivity.
  rewrite decide_True by reflexivity. unfold ret at 1.
  rewrite int_of_uint32_small by (unfold INT_MAX; lia).
  rewrite decide_False by lia.
  change (Z.to_nat 0) with 0%nat. unfold bind. cbn [shift_order].
  unfold ret. fold x.
  rewrite (store_order_run set_idx 0 x x _ row' Hrow1) by reflexivity.
  by rewrite with_order_row_twice.
Qed.

Lemma cache_access_idempotent_witness :
  cache_access LRU scenario_cache 0 12
    (mk_replacement_policy (Some
       (mk_lru_metadata 2 4 [ [2; 3; 1; 0]; [0; 1; 2; 3] ])))
  = Some (tt, mk_replacement_policy (Some
       (mk_lru_metadata 2 4 [ [2; 3; 1; 0]; [0; 1; 2; 3] ]))).
Proof.
  apply (cache_access_idempotent LRU scenario_cache 0 12 scenario_policy _ tt).
  - intros md [= <-]. unfold UINT32_MODULUS. simpl. lia.
  - vm_compute. reflexivity.
Defined.

(* ===================================================================== *)
(** ** Sequences of accesses *)
(* ===================================================================== *)

(** After the entries of [idxs] have been brought to the front one after the
    other, the entries that are not in [idxs] are behind all of them, in the
    order they had. *)
Lemma foldl_touch_front (idxs : list Z) :
  forall row, exists front,
    foldl touch row idxs = front ++ filter (fun x => x ∉ idxs) row /\
    forall x, x ∈ front <-> x ∈ idxs.
Proof.
  induction idxs as [|i idxs IH]; intros row.
  - exists []. split; [|done]. simpl. symmetry. apply filter_all.
    intros x _. apply not_elem_of_nil.
  - destruct (IH (touch row i)) as (front & Hfold & Hfront).
    cbn [foldl]. rewrite Hfold. unfold touch at 1.
    rewrite filter_cons, list_filter_filter.
    rewrite (list_filter_iff _ (fun x => x ∉ i :: idxs))
      by (intros x; rewrite not_elem_of_cons; tauto).
    destruct (decide (i ∉ idxs)) as [Hnew|Hold].
    + exists (front ++ [i]). split; [by rewrite <- app_assoc|].
      intros x. rewrite elem_of_app, list_elem_of_singleton, elem_of_cons,
        Hfront. tauto.
    + exists front. split; [done|].
      intros x. rewrite elem_of_cons, Hfront. split; [tauto|].
      intros [->|Hx]; [|done]. by destruct (decide (i ∈ idxs)).
Qed.

Lemma foldl_touch_NoDup (idxs : list Z) :
  NoDup idxs ->
  forall row,
    foldl touch row idxs = reverse idxs ++ filter (fun x => x ∉ idxs) row.
Proof.
  induction 1 as [|i idxs Hnotin Hnd IH]; intros row.
  - simpl. symmetry. apply filter_all. intros x _. apply not_elem_of_nil.
  - cbn [foldl]. rewrite IH. unfold touch at 1.
    rewrite filter_cons_True by done. rewrite list_filter_filter.
    rewrite (list_filter_iff _ (fun x => x ∉ i :: idxs))
      by (intros x; rewrite not_elem_of_cons; tauto).
    by rewrite reverse_cons, <- app_assoc.
Qed.

Lemma foldl_touch_Permutation (idxs : list Z) :
  forall row,
    NoDup row -> (forall i, i ∈ idxs -> i ∈ row) ->
    foldl touch row idxs ≡ₚ row.
Proof.
  induction idxs as [|i idxs IH]; intros row Hnd Hin; [done|].
  cbn [foldl].
  assert (touch row i ≡ₚ row) as Hperm
    by (apply touch_Permutation; [done|apply Hin; by left]).
  rewrite <- Hperm at 2. apply IH.
  - by rewrite Hperm.
  - intros j Hj. rewrite Hperm. apply Hin. by right.
Qed.

Lemma resolves_to_range (cs : cache_system) (s t i : Z) :
  resolves_to cs s t i -> 0 <= i < cs_associativity cs.
Proof. by intros [Hi _]. Qed.

Lemma well_formed_cache_of (cs cs' : cache_system) (md : lru_metadata) :
  well_formed cs md ->
  cache_of (num_sets md) (associativity md) cs' ->
  well_formed cs' md.
Proof.
  intros [Ha Hn _ _ Haddr Hol Hord] [Hcs Hlen]. by split.
Qed.

Lemma accesses_line_range (cs : cache_system) (md : lru_metadata) (s : Z)
    (calls : list (cache_system * Z)) (idxs : list Z) (i : Z) :
  Forall2 (accesses_line md s) calls idxs ->
  i ∈ idxs -> 0 <= i < associativity md.
Proof.
  intros Hcalls [n Hn]%list_elem_of_lookup_1.
  destruct (Forall2_lookup_r _ _ _ _ _ Hcalls Hn)
    as (call & _ & [Hcs _] & Hres).
  rewrite <- Hcs. by apply resolves_to_range in Hres.
Qed.

(** A sequence of accesses to the lines [idxs], each on its own cache. *)
Lemma access_sequence_run (k : recency_kind) (cs : cache_system)
    (md : lru_metadata) (s : Z) (row0 : list Z) :
  well_formed cs md -> 0 <= s < num_sets md ->
  order md !! Z.to_nat s = Some row0 ->
  forall calls idxs,
    Forall2 (accesses_line md s) calls idxs ->
    forall row,
      row ≡ₚ row0 ->
      access_sequence k s calls
        (mk_replacement_policy (Some (with_order_row md (Z.to_nat s) row)))
      = Some (tt, mk_replacement_policy (Some
          (with_order_row md (Z.to_nat s) (foldl touch row idxs)))).
Proof.
  intros Hwf Hs Hrow0.
  pose proof (wf_order _ _ Hwf _ _ Hrow0) as Hperm0.
  induction 1 as [|[c t] i calls idxs [Hgeo Hres] _ IH]; intros row Hperm;
    [done|].
  simpl in Hgeo, Hres.
  pose proof (well_formed_cache_of cs c md Hwf Hgeo) as Hwfc.
  cbn [access_sequence foldl]. unfold bind.
  rewrite cache_access_unfold.
  assert (NoDup row) as Hnd
    by (rewrite Hperm; by apply (Permutation_seqZ_NoDup _ _ Hperm0)).
  assert (i ∈ row) as Hin.
  { rewrite Hperm. apply (Permutation_seqZ_elem _ _ i Hperm0).
    rewrite <- (wf_cache_associativity _ _ Hwfc).
    by apply resolves_to_range in Hres. }
  rewrite (lru_cache_access_touch c _ s t i row).
  - rewrite with_order_row_twice. apply IH.
    by rewrite (touch_Permutation row i Hnd Hin).
  - by apply well_formed_with_order_row with (row := row0).
  - done.
  - done.
  - apply index_Some. split; [lia|].
    by apply order_with_order_row with (row := row0).
Qed.

(** X4, LRU spares the lines that were accessed.  On a well-formed policy,
    after accesses to one set, in any number and order, each on the cache
    as it is at that call, so that lines may be filled or refilled between
    two accesses, [lru_eviction_index] returns a line that is not among the
    lines [idxs] that were accessed, as long as the set has such a
    line. *)
Theorem lru_evicts_line_not_accessed (cs : cache_system) (set_idx : Z)
    (rp : lru_policy) (md : lru_metadata)
    (calls : list (cache_system * Z)) (idxs : list Z) :
  data rp = Some md ->
  well_formed cs md ->
  0 <= set_idx < num_sets md ->
  Forall2 (accesses_line md set_idx) calls idxs ->
  (exists y, 0 <= y < associativity md /\ y ∉ idxs) ->
  exists r rp',
    (access_sequence LRU set_idx calls;; lru_eviction_index cs set_idx) rp
    = Some (r, rp') /\
    (r ∉ idxs) /\ 0 <= r < associativity md.
Proof.
  intros Hmd Hwf Hs Hres (y & Hy & Hynew). rewrite (policy_eta rp md Hmd).
  destruct (well_formed_row cs md set_idx Hwf Hs)
    as (row & Hrow & Hperm & Hlen).
  pose proof Hrow as [Hs0 Hrow']%index_Some.
  pose proof (Permutation_seqZ_NoDup _ _ Hperm) as Hnd.
  assert (foldl touch row idxs ≡ₚ row) as Hperm'.
  { apply foldl_touch_Permutation; [done|]. intros i Hi.
    apply (Permutation_seqZ_elem _ _ i Hperm).
    by apply (accesses_line_range cs md set_idx calls idxs). }
  destruct (foldl_touch_front idxs row) as (front & Hfold & Hfront).
  set (rest := filter (fun x => x ∉ idxs) row) in *.
  assert (y ∈ rest) as Hyrest.
  { apply list_elem_of_filter. split; [done|].
    by apply (Permutation_seqZ_elem _ _ y Hperm). }
  destruct (last rest) as [r|] eqn:Hlast; cycle 1.
  { apply last_None in Hlast. rewrite Hlast in Hyrest.
    by apply elem_of_nil in Hyrest. }
  assert (r ∈ rest) as Hr.
  { rewrite last_lookup in Hlast. by apply list_elem_of_lookup_2 in Hlast. }
  apply list_elem_of_filter in Hr as [Hrnew Hrrow].
  assert (index (foldl touch row idxs) (associativity md - 1) = Some r) as Htl.
  { apply index_Some. destruct (wf_associativity _ _ Hwf). split; [lia|].
    replace (Z.to_nat (associativity md - 1))
      with (pred (length (foldl touch row idxs))) by (rewrite Hperm'; lia).
    rewrite <- last_lookup, Hfold. apply last_app_Some. by left. }
  exists r, (mk_replacement_policy (Some
    (with_order_row md (Z.to_nat set_idx) (foldl touch row idxs)))).
  split; [|split; [done|by apply (Permutation_seqZ_elem _ _ r Hperm)]].
  unfold bind. rewrite <- (with_order_row_id md (Z.to_nat set_idx) row Hrow')
    at 1.
  rewrite (access_sequence_run LRU cs md set_idx row Hwf Hs Hrow' calls idxs)
    by done.
  apply lru_eviction_index_run with (row := foldl touch row idxs);
    [apply Hwf| |done].
  apply index_Some. split; [done|].
  by apply order_with_order_row with (row := row).
Qed.

Lemma scenario_cache_refilled_of : cache_of 2 4 scenario_cache_refilled.
Proof. split; reflexivity. Defined.

Lemma scenario_refilled_resolves_14 :
  resolves_to scenario_cache_refilled 0 14 0.
Proof.
  split; [simpl; lia|]. split; [line_resident|]. intros j Hj. lia.
Defined.

Lemma scenario_refilled_resolves_11 :
  resolves_to scenario_cache_refilled 0 11 1.
Proof.
  split; [simpl; lia|]. split; [line_resident|].
  intros j Hj. assert (j = 0) as -> by lia. line_not_resident.
Defined.

Lemma scenario_refilled_resolves_13 :
  resolves_to scenario_cache_refilled 0 13 3.
Proof.
  split; [simpl; lia|]. split; [line_resident|].
  intros j Hj. assert (j = 0 \/ j = 1 \/ j = 2) as [-> | [-> | ->]] by lia;
    line_not_resident.
Defined.

Lemma lru_evicts_line_not_accessed_witness :
  exists r rp',
    (access_sequence LRU 0
       [(scenario_cache, 12); (scenario_cache_refilled, 14);
        (scenario_cache, 12)];;
     lru_eviction_index scenario_cache_refilled 0) scenario_policy
    = Some (r, rp') /\
    (r ∉ [2; 0; 2]) /\ 0 <= r < associativity scenario_metadata.
Proof.
  apply (lru_evicts_line_not_accessed scenario_cache_refilled 0
           scenario_policy scenario_metadata
           [(scenario_cache, 12); (scenario_cache_refilled, 14);
            (scenario_cache, 12)] [2; 0; 2]).
  - reflexivity.
  - exact (well_formed_cache_of _ _ _ scenario_well_formed
             scenario_cache_refilled_of).
  - simpl. lia.
  - apply List.Forall2_cons;
      [exact (conj scenario_cache_of scenario_resolves_12)|].
    apply List.Forall2_cons;
      [exact (conj scenario_cache_refilled_of scenario_refilled_resolves_14)|].
    apply List.Forall2_cons;
      [exact (conj scenario_cache_of scenario_resolves_12)|].
    apply List.Forall2_nil.
  - exists 1. split; [simpl; lia|].
    apply (bool_decide_unpack _). vm_compute. exact I.
Defined.

(** X5, first in, first out of a full sweep.  On a well-formed policy, after
    accesses that reach every line of a set exactly once, in any order,
    each on the cache as it is at that call, as in a sweep of fills, the
    order of the set is the reverse of the order of the accesses, and
    [lru_eviction_index] returns the line that was accessed first. *)
Theorem lru_evicts_first_accessed (k : recency_kind) (cs : cache_system)
    (set_idx : Z) (rp : lru_policy) (md : lru_metadata)
    (calls : list (cache_system * Z)) (idxs : list Z) :
  data rp = Some md ->
  well_formed cs md ->
  0 <= set_idx < num_sets md ->
  Forall2 (accesses_line md set_idx) calls idxs ->
  NoDup idxs ->
  (forall y, 0 <= y < associativity md -> y ∈ idxs) ->
  exists i0 rp' md',
    head idxs = Some i0 /\
    access_sequence k set_idx calls rp = Some (tt, rp') /\
    data rp' = Some md' /\
    index (order md') set_idx = Some (reverse idxs) /\
    lru_eviction_index cs set_idx rp' = Some (i0, rp').
Proof.
  intros Hmd Hwf Hs Hres Hnd Hall. rewrite (policy_eta rp md Hmd).
  destruct (well_formed_row cs md set_idx Hwf Hs)
    as (row & Hrow & Hperm & Hlen).
  pose proof Hrow as [Hs0 Hrow']%index_Some.
  assert (foldl touch row idxs = reverse idxs) as Hfold.
  { rewrite (foldl_touch_NoDup idxs Hnd), filter_none, app_nil_r; [done|].
    intros x Hx Hnew. apply Hnew, Hall.
    by apply (Permutation_seqZ_elem _ _ x Hperm). }
  assert (reverse idxs ≡ₚ row) as Hperm'.
  { rewrite <- Hfold. apply foldl_touch_Permutation.
    - by apply (Permutation_seqZ_NoDup _ _ Hperm).
    - intros i Hi. apply (Permutation_seqZ_elem _ _ i Hperm).
      by apply (accesses_line_range cs md set_idx calls idxs). }
  destruct idxs as [|i0 idxs'] eqn:Hidxs.
  { exfalso. destruct (wf_associativity _ _ Hwf).
    apply (not_elem_of_nil 0), Hall. lia. }
  rewrite <- Hidxs in *.
  assert (index (order (with_order_row md (Z.to_nat set_idx) (reverse idxs)))
            set_idx = Some (reverse idxs)) as Hrow1.
  { apply index_Some. split; [done|].
    by apply order_with_order_row with (row := row). }
  exists i0, (mk_replacement_policy (Some
    (with_order_row md (Z.to_nat set_idx) (reverse idxs)))),
    (with_order_row md (Z.to_nat set_idx) (reverse idxs)).
  split; [by rewrite Hidxs|]. split; [|split; [done|split; [done|]]].
  - rewrite <- (with_order_row_id md (Z.to_nat set_idx) row Hrow') at 1.
    rewrite (access_sequence_run k cs md set_idx row Hwf Hs Hrow' calls idxs)
      by done.
    by rewrite Hfold.
  - apply lru_eviction_index_run with (row := reverse idxs);
      [apply Hwf|done|].
    change (associativity (with_order_row md (Z.to_nat set_idx)
                             (reverse idxs))) with (associativity md).
    apply index_Some. destruct (wf_associativity _ _ Hwf). split; [lia|].
    replace (Z.to_nat (associativity md - 1))
      with (pred (length (reverse idxs))) by (rewrite Hperm'; lia).
    rewrite <- last_lookup, last_reverse. by rewrite Hidxs.
Qed.

Lemma lru_evicts_first_accessed_witness :
  exists i0 rp' md',
    head [2; 0; 3; 1] = Some i0 /\
    access_sequence LRU 0
      [(scenario_cache, 12); (scenario_cache_refilled, 14);
       (scenario_cache_refilled, 13); (scenario_cache_refilled, 11)]
      scenario_policy
      = Some (tt, rp') /\
    data rp' = Some md' /\
    index (order md') 0 = Some (reverse [2; 0; 3; 1]) /\
    lru_eviction_index scenario_cache_refilled 0 rp' = Some (i0, rp').
Proof.
  apply (lru_evicts_first_accessed LRU scenario_cache_refilled 0
           scenario_policy scenario_metadata
           [(scenario_cache, 12); (scenario_cache_refilled, 14);
            (scenario_cache_refilled, 13); (scenario_cache_refilled, 11)]
           [2; 0; 3; 1]).
  - reflexivity.
  - exact (well_formed_cache_of _ _ _ scenario_well_formed
             scenario_cache_refilled_of).
  - simpl. lia.
  - apply List.Forall2_cons;
      [exact (conj scenario_cache_of scenario_resolves_12)|].
    apply List.Forall2_cons;
      [exact (conj scenario_cache_refilled_of scenario_refilled_resolves_14)|].
    apply List.Forall2_cons;
      [exact (conj scenario_cache_refilled_of scenario_refilled_resolves_13)|].
    apply List.Forall2_cons;
      [exact (conj scenario_cache_refilled_of scenario_refilled_resolves_11)|].
    apply List.Forall2_nil.
  - apply (bool_decide_unpack _). vm_compute. exact I.
  - intros y Hy. simpl in Hy.
    assert (y = 0 \/ y = 1 \/ y = 2 \/ y = 3) as [-> | [-> | [-> | ->]]]
      by lia; apply (bool_decide_unpack _); vm_compute; exact I.
Defined.


(* ===================================================================== *)
(** ** The result of the eviction functions *)
(* ===================================================================== *)

(** [lru_prefer_clean_eviction_index] on a well-formed policy: the result
    is the entry at a position [q] of the order; no entry behind [q] is a
    clean line; and either the result is a clean line, or [q] is the tail
    and no entry of the order is a clean line. *)
Lemma lru_prefer_clean_eviction_index_run (cs : cache_system)
    (md : lru_metadata) (s : Z) :
  well_formed cs md -> 0 <= s < num_sets md ->
  exists r q row,
    index (order md) s = Some row /\
    lru_prefer_clean_eviction_index cs s (mk_replacement_policy (Some md))
    = Some (r, mk_replacement_policy (Some md)) /\
    index row q = Some r /\
    (forall q' x cl, q < q' -> index row q' = Some x ->
       set_line cs s x = Some cl -> status cl <> EXCLUSIVE) /\
    ((exists cl, set_line cs s r = Some cl /\ status cl = EXCLUSIVE) \/
     (q = associativity md - 1 /\
      forall q' x cl, index row q' = Some x ->
        set_line cs s x = Some cl -> status cl <> EXCLUSIVE)).
Proof.
  intros Hwf Hs.
  pose proof Hwf as [Ha Hn Hcs Hlen Haddr Hol Hord].
  destruct (well_formed_row cs md s Hwf Hs) as (row & Hrow & Hperm & Hrowlen).
  assert (forall q x, index row q = Some x -> 0 <= x < associativity md)
    as Hentries.
  { intros q x [_ Hx]%index_Some.
    apply (Permutation_seqZ_elem row _ x Hperm).
    by apply list_elem_of_lookup_2 in Hx. }
  assert (forall x, 0 <= x < associativity md ->
            index (cache_lines cs)
              (uint32 (uint32 (s * associativity md) + x))
            = set_line cs s x) as Hglobal.
  { intros x Hx. unfold set_line.
    by rewrite (well_formed_global_idx cs md s x Hwf Hs Hx), Hcs. }
  assert (uint32 (associativity md - 1) = associativity md - 1) as Htail.
  { apply uint32_small. unfold uint32_range, UINT32_MODULUS.
    unfold INT_MAX in Ha. lia. }
  destruct (index_is_Some row (associativity md - 1)) as [tl Htl]; [lia|].
  destruct (find_clean_line_run cs s (associativity md) md row
              (Z.to_nat (associativity md)) Hrow (associativity md - 1))
    as (res & Hrun & Hres); [lia..| |].
  { intros q x Hq Hx. rewrite (Hglobal x (Hentries q x Hx)).
    apply (well_formed_set_line cs md s x Hwf Hs). by eapply Hentries. }
  assert (lru_prefer_clean_eviction_index cs s
            (mk_replacement_policy (Some md))
          = match res with
            | Some x => Some (x, mk_replacement_policy (Some md))
            | None => Some (tl, mk_replacement_policy (Some md))
            end) as Heval.
  { unfold lru_prefer_clean_eviction_index, bind at 1, load_associativity.
    simpl. unfold bind at 1. rewrite Htail.
    rewrite int_of_uint32_small by lia.
    replace (associativity md - 1 + 1) with (associativity md) by lia.
    rewrite Hrun. destruct res; [reflexivity|].
    by apply load_order_run with (row := row). }
  destruct res as [x|].
  - destruct Hres as (q & cl & Hq & Hx & Hcl & Hst & Hbehind).
    pose proof (Hentries q x Hx) as Hxr. rewrite (Hglobal x Hxr) in Hcl.
    exists x, q, row. repeat split; try done.
    + intros q' x' cl' Hq' Hx' Hcl'.
      pose proof (Hentries q' x' Hx') as Hxr'.
      apply (Hbehind q' x' cl'); [|done|by rewrite (Hglobal x' Hxr')].
      apply index_lt_length in Hx'. lia.
    + left. by exists cl.
  - assert (forall q' x cl, index row q' = Some x ->
              set_line cs s x = Some cl -> status cl <> EXCLUSIVE) as Hnone.
    { intros q' x cl Hx Hcl. pose proof (Hentries q' x Hx) as Hxr.
      apply (Hres q' x cl); [|done|by rewrite (Hglobal x Hxr)].
      apply index_lt_length in Hx. lia. }
    exists tl, (associativity md - 1), row. repeat split; try done.
    + intros q' x cl _. apply Hnone.
    + right. by split.
Qed.

(** X6, the result of the eviction functions names a line of the set.  On a
    well-formed policy the eviction function of LRU and of LRU_PREFER_CLEAN
    returns, and its result is a local index below the associativity, for
    which the set has a line. *)
Theorem eviction_index_in_range (k : recency_kind) (cs : cache_system)
    (set_idx : Z) (rp : lru_policy) (md : lru_metadata) :
  data rp = Some md ->
  well_formed cs md ->
  0 <= set_idx < num_sets md ->
  exists r,
    eviction_index k cs set_idx rp = Some (r, rp) /\
    0 <= r < associativity md /\
    is_Some (set_line cs set_idx r).
Proof.
  intros Hmd Hwf Hs. rewrite (policy_eta rp md Hmd).
  destruct (well_formed_row cs md set_idx Hwf Hs)
    as (row & Hrow & Hperm & Hlen).
  assert (forall q x, index row q = Some x -> 0 <= x < associativity md)
    as Hentries.
  { intros q x [_ Hx]%index_Some.
    apply (Permutation_seqZ_elem row _ x Hperm).
    by apply list_elem_of_lookup_2 in Hx. }
  destruct k; simpl.
  - destruct (index_is_Some row (associativity md - 1)) as [tl Htl].
    { destruct (wf_associativity _ _ Hwf). lia. }
    exists tl. split; [|split].
    + apply lru_eviction_index_run with (row := row); [apply Hwf|done..].
    + by apply (Hentries _ _ Htl).
    + apply (well_formed_set_line cs md set_idx tl Hwf Hs).
      by apply (Hentries _ _ Htl).
  - destruct (lru_prefer_clean_eviction_index_run cs md set_idx Hwf Hs)
      as (r & q & row' & Hrow' & Hrun & Hq & _).
    assert (row' = row) as -> by congruence.
    exists r. split; [done|split].
    + by apply (Hentries _ _ Hq).
    + apply (well_formed_set_line cs md set_idx r Hwf Hs).
      by apply (Hentries _ _ Hq).
Qed.

Lemma eviction_index_in_range_witness :
  exists r,
    eviction_index LRU_PREFER_CLEAN scenario_cache 1 scenario_policy
      = Some (r, scenario_policy) /\
    0 <= r < associativity scenario_metadata /\
    is_Some (set_line scenario_cache 1 r).
Proof.
  apply (eviction_index_in_range LRU_PREFER_CLEAN scenario_cache 1
           scenario_policy scenario_metadata).
  - reflexivity.
  - exact scenario_well_formed.
  - simpl. lia.
Defined.

(** X7, LRU_PREFER_CLEAN may evict the line just accessed.  On a well-formed
    policy, an access whose tag resolves to line [i] is followed by
    [lru_prefer_clean_eviction_index] on the same set; when, in the cache
    of that second call, line [i] is clean and no other line of the set
    is, the result is [i], the line just accessed.  The lines of the other
    sets do not matter. *)
Theorem prefer_clean_evicts_accessed_clean_line (cs cs' : cache_system)
    (set_idx t i : Z) (rp : lru_policy) (md : lru_metadata) :
  data rp = Some md ->
  well_formed cs md ->
  well_formed cs' md ->
  0 <= set_idx < num_sets md ->
  resolves_to cs set_idx t i ->
  (exists cl, set_line cs' set_idx i = Some cl /\ status cl = EXCLUSIVE) ->
  (forall j cl, 0 <= j < associativity md -> j <> i ->
     set_line cs' set_idx j = Some cl -> status cl <> EXCLUSIVE) ->
  exists rp',
    (lru_prefer_clean_cache_access cs set_idx t;;
     lru_prefer_clean_eviction_index cs' set_idx) rp
    = Some (i, rp').
Proof.
  intros Hmd Hwf Hwfe Hs Hres (cl & Hcl & Hst) Honly.
  rewrite (policy_eta rp md Hmd).
  destruct (well_formed_row cs md set_idx Hwf Hs)
    as (row & Hrow & Hperm & Hlen).
  pose proof Hrow as [Hs0 Hrow']%index_Some.
  pose proof (Permutation_seqZ_NoDup _ _ Hperm) as Hnd.
  assert (i ∈ row) as Hin.
  { apply (Permutation_seqZ_elem row (associativity md) i Hperm).
    rewrite <- (wf_cache_associativity _ _ Hwf).
    by apply resolves_to_range in Hres. }
  pose proof (touch_Permutation row i Hnd Hin) as Hperm'.
  set (md' := with_order_row md (Z.to_nat set_idx) (touch row i)).
  assert (well_formed cs' md') as Hwf'
    by (by apply well_formed_with_order_row with (row := row)).
  destruct (lru_prefer_clean_eviction_index_run cs' md' set_idx Hwf' Hs)
    as (r & q & row' & Hrow1 & Hrun & Hq & _ & Hcase).
  assert (row' = touch row i) as ->.
  { apply index_Some in Hrow1 as [_ Hrow1].
    unfold md' in Hrow1.
    rewrite (order_with_order_row md _ row (touch row i) Hrow') in Hrow1.
    congruence. }
  assert (0 <= r < associativity md) as Hr.
  { apply (Permutation_seqZ_elem row (associativity md) r Hperm).
    rewrite <- Hperm'. apply index_Some in Hq as [_ Hq].
    by apply list_elem_of_lookup_2 in Hq. }
  exists (mk_replacement_policy (Some md')).
  unfold bind.
  change lru_prefer_clean_cache_access with lru_cache_access.
  rewrite (lru_cache_access_touch cs md set_idx t i row) by done.
  fold md'. rewrite Hrun. do 2 f_equal.
  destruct Hcase as [(cl' & Hcl' & Hst')|[_ Hnone]].
  - destruct (decide (r = i)) as [->|Hne]; [done|].
    by destruct (Honly r cl' Hr Hne Hcl').
  - by destruct (Hnone 0 i cl eq_refl Hcl).
Qed.

Lemma two_by_two_well_formed :
  well_formed two_by_two_cache (mk_lru_metadata 2 2 [ [0; 1]; [0; 1] ]).
Proof.
  split; simpl; unfold INT_MAX, UINT32_MODULUS; try lia; try reflexivity.
  intros [|[|s]] row; simpl; intros [= <-];
    apply (bool_decide_unpack _); vm_compute; exact I.
Defined.

Lemma prefer_clean_evicts_accessed_clean_line_witness :
  exists rp',
    (lru_prefer_clean_cache_access two_by_two_cache 0 8;;
     lru_prefer_clean_eviction_index two_by_two_cache 0)
      (mk_replacement_policy (Some
         (mk_lru_metadata 2 2 [ [0; 1]; [0; 1] ])))
    = Some (1, rp').
Proof.
  apply (prefer_clean_evicts_accessed_clean_line two_by_two_cache
           two_by_two_cache 0 8 1 _
           (mk_lru_metadata 2 2 [ [0; 1]; [0; 1] ])).
  - reflexivity.
  - exact two_by_two_well_formed.
  - exact two_by_two_well_formed.
  - simpl. lia.
  - split; [simpl; lia|]. split; [line_resident|].
    intros j Hj. assert (j = 0) as -> by lia. line_not_resident.
  - eexists. split; reflexivity.
  - intros j cl Hj Hne Hcl. simpl in Hj.
    assert (j = 0) as -> by lia.
    injection Hcl as <-. discriminate.
Defined.


(* ===================================================================== *)
(** ** The life of a policy *)
(* ===================================================================== *)

(** What every reachable state keeps of the constructor's arguments. *)
Lemma reachable_shape (k : recency_kind) (sets a : Z) (rp : lru_policy) :
  a <= UINT32_MODULUS ->
  reachable k sets a rp ->
  exists md, data rp = Some md /\
    num_sets md = sets /\ associativity md = a /\
    length (order md) = Z.to_nat sets /\ order_invariant md.
Proof.
  intros Ha Hreach.
  induction Hreach
    as [rp Hnew|cs s t rp rp' u _ IH Hrun|cs s r rp rp' _ IH Hrun].
  - apply new_Some in Hnew as ->. eexists. split; [reflexivity|]. simpl.
    repeat split; [apply length_init_order|].
    intros s row Hrow. simpl in *. by rewrite (lookup_init_order _ _ _ _ Hrow).
  - destruct IH as (md & Hmd & Hsets & Hassoc & Hlen & Hord).
    rewrite cache_access_unfold in Hrun.
    apply lru_cache_access_cases in Hrun
      as [->|(md' & row & p & x & Hmd' & _ & Hrow & Hp & ->)].
    + by exists md.
    + assert (md' = md) as -> by congruence.
      eexists. split; [reflexivity|]. simpl.
      repeat split; [done..|by rewrite length_insert|].
      apply order_invariant_with_order_row with (row := row); [done..|].
      by apply move_to_front_Permutation.
    + intros md' Hmd'. assert (md' = md) as -> by congruence. lia.
  - apply eviction_index_pure in Hrun as ->. exact IH.
Qed.

Lemma reachable_well_formed (k : recency_kind) (sets a : Z)
    (rp : lru_policy) (cs : cache_system) :
  0 < a <= INT_MAX + 1 -> 0 <= sets -> sets * a <= UINT32_MODULUS ->
  reachable k sets a rp -> cache_of sets a cs ->
  exists md, data rp = Some md /\ num_sets md = sets /\ well_formed cs md.
Proof.
  intros Ha Hsets Haddr Hreach [Hcs Hlines].
  destruct (reachable_shape k sets a rp) as
    (md & Hmd & Hn & Hassoc & Hlen & Hord); [|done|].
  { unfold INT_MAX in Ha. unfold UINT32_MODULUS. lia. }
  exists md. split; [done|]. split; [done|].
  split; rewrite ?Hn, ?Hassoc; try done. lia.
Qed.

(** X8, no undefined behaviour in the life of a policy.  A policy of either
    kind is built for [sets] sets of [a] lines, with [0 < a <= 2^31] and
    [sets * a <= 2^32], and then used in any way.  In every state it
    reaches, on every cache of that geometry and every set index below
    [sets], the access function returns for every tag, and the eviction
    function returns an index below [a] and leaves the policy as it is. *)
Theorem reachable_calls_return (k : recency_kind) (sets a : Z)
    (rp : lru_policy) (cs : cache_system) (set_idx t : Z) :
  0 < a <= INT_MAX + 1 ->
  0 <= sets ->
  sets * a <= UINT32_MODULUS ->
  reachable k sets a rp ->
  cache_of sets a cs ->
  0 <= set_idx < sets ->
  (exists rp', cache_access k cs set_idx t rp = Some (tt, rp')) /\
  (exists r, eviction_index k cs set_idx rp = Some (r, rp) /\ 0 <= r < a).
Proof.
  intros Ha Hsets Haddr Hreach Hcs Hs.
  destruct (reachable_well_formed k sets a rp cs Ha Hsets Haddr Hreach Hcs)
    as (md & Hmd & Hn & Hwf).
  pose proof (wf_cache_associativity _ _ Hwf) as Hassoc.
  destruct Hcs as [Hcs _]. rewrite Hcs in Hassoc.
  rewrite (policy_eta rp md Hmd). rewrite <- Hn in Hs. split.
  - rewrite cache_access_unfold. by apply lru_cache_access_total.
  - destruct (well_formed_row cs md set_idx Hwf Hs)
      as (row & Hrow & Hperm & Hlen).
    assert (forall q x, index row q = Some x -> 0 <= x < a) as Hentries.
    { intros q x [_ Hx]%index_Some. rewrite Hassoc.
      apply (Permutation_seqZ_elem row _ x Hperm).
      by apply list_elem_of_lookup_2 in Hx. }
    destruct k; simpl.
    + destruct (index_is_Some row (associativity md - 1)) as [tl Htl]; [lia|].
      exists tl. split; [|by apply (Hentries _ _ Htl)].
      apply lru_eviction_index_run with (row := row); [apply Hwf|done..].
    + destruct (lru_prefer_clean_eviction_index_run cs md set_idx Hwf Hs)
        as (r & q & row' & Hrow' & Hrun & Hq & _).
      assert (row' = row) as -> by congruence.
      exists r. split; [done|by apply (Hentries _ _ Hq)].
Qed.

Lemma reachable_calls_return_witness :
  (exists rp', cache_access LRU scenario_cache 1 23
                 (mk_replacement_policy (Some
                    (mk_lru_metadata 2 4 [ [2; 0; 1; 3]; [0; 1; 2; 3] ])))
               = Some (tt, rp')) /\
  (exists r, eviction_index LRU scenario_cache 1
               (mk_replacement_policy (Some
                  (mk_lru_metadata 2 4 [ [2; 0; 1; 3]; [0; 1; 2; 3] ])))
             = Some (r, mk_replacement_policy (Some
                  (mk_lru_metadata 2 4 [ [2; 0; 1; 3]; [0; 1; 2; 3] ]))) /\
             0 <= r < 4).
Proof.
  apply (reachable_calls_return LRU 2 4 _ scenario_cache 1 23).
  - unfold INT_MAX. lia.
  - lia.
  - unfold UINT32_MODULUS. lia.
  - apply (reachable_cache_access LRU 2 4 scenario_cache 0 12
             (mk_replacement_policy (Some
                (mk_lru_metadata 2 4 [ [0; 1; 2; 3]; [0; 1; 2; 3] ]))) _ tt).
    + apply reachable_new. reflexivity.
    + vm_compute. reflexivity.
  - exact scenario_cache_of.
  - lia.
Defined.

(** The loop of the cleanup functions, when the order has its rows. *)
Lemma free_order_rows_run (md : lru_metadata) (n : nat) :
  forall i,
    0 <= i -> i + Z.of_nat n <= Z.of_nat (length (order md)) ->
    free_order_rows md i n = Some (OrderRow <$> seqZ i (Z.of_nat n)).
Proof.
  induction n as [|n IH]; intros i Hi Hn; [done|].
  cbn [free_order_rows].
  destruct (index_is_Some (order md) i) as [row ->]; [lia|].
  rewrite IH by lia. rewrite (seqZ_cons i) by lia.
  replace (Z.succ i) with (i + 1) by lia.
  replace (Z.pred (Z.of_nat (S n))) with (Z.of_nat n) by lia.
  by rewrite fmap_cons.
Qed.

(** X9, the cleanup releases what the constructor allocated, once.  In
    every state that a policy built for [sets] sets reaches, the cleanup
    function of its kind returns, having freed the order of each set in
    turn, then the table of the orders, then the metadata, and having
    cleared [data]; called again it frees nothing; and [eviction_index] on
    the released policy is undefined. *)
Theorem cleanup_releases_everything (k : recency_kind) (sets a : Z)
    (rp : lru_policy) :
  0 <= sets ->
  a <= UINT32_MODULUS ->
  reachable k sets a rp ->
  cleanup k (Some rp)
  = Some (blocks_of_policy sets, Some (mk_replacement_policy None)) /\
  cleanup k (Some (mk_replacement_policy None))
  = Some ([], Some (mk_replacement_policy None)) /\
  forall cs set_idx,
    eviction_index k cs set_idx (mk_replacement_policy None) = None.
Proof.
  intros Hsets Ha Hreach.
  destruct (reachable_shape k sets a rp Ha Hreach)
    as (md & Hmd & Hn & _ & Hlen & _).
  rewrite (policy_eta rp md Hmd). split; [|split].
  - assert (free_order_rows md 0 (Z.to_nat (num_sets md))
            = Some (OrderRow <$> seqZ 0 sets)) as Hfree.
    { rewrite free_order_rows_run by lia. by rewrite Hn, Z2Nat.id by lia. }
    destruct k; simpl; by rewrite Hfree.
  - by destruct k.
  - intros cs s. by destruct k.
Qed.

Lemma cleanup_releases_everything_witness :
  cleanup LRU (Some (mk_replacement_policy (Some
     (mk_lru_metadata 2 4 [ [2; 0; 1; 3]; [0; 1; 2; 3] ]))))
  = Some (blocks_of_policy 2, Some (mk_replacement_policy None)) /\
  cleanup LRU (Some (mk_replacement_policy None))
  = Some ([], Some (mk_replacement_policy None)) /\
  forall cs set_idx,
    eviction_index LRU cs set_idx (mk_replacement_policy None) = None.
Proof.
  apply (cleanup_releases_everything LRU 2 4).
  - lia.
  - unfold UINT32_MODULUS. lia.
  - apply (reachable_cache_access LRU 2 4 scenario_cache 0 12
             (mk_replacement_policy (Some
                (mk_lru_metadata 2 4 [ [0; 1; 2; 3]; [0; 1; 2; 3] ]))) _ tt).
    + apply reachable_new. reflexivity.
    + vm_compute. reflexivity.
Defined.

(* ===================================================================== *)
(** ** Arguments out of range *)
(* ===================================================================== *)

Lemma load_order_no_row (s i : Z) (md : lru_metadata) :
  index (order md) s = None ->
  load_order s i (mk_replacement_policy (Some md)) = None.
Proof. intros Hrow. unfold load_order. simpl. by rewrite Hrow. Qed.

(** X10, no check of the set index.  The eviction functions of LRU and
    LRU_PREFER_CLEAN index the table of the orders with [set_idx] as it
    comes: with a set index at or beyond the number of orders, the call is
    undefined behaviour. *)
Theorem eviction_index_set_out_of_range (k : recency_kind)
    (cs : cache_system) (set_idx : Z) (rp : lru_policy) (md : lru_metadata) :
  data rp = Some md ->
  Z.of_nat (length (order md)) <= set_idx ->
  eviction_index k cs set_idx rp = None.
Proof.
  intros Hmd Hs. rewrite (policy_eta rp md Hmd).
  assert (index (order md) set_idx = None) as Hrow.
  { unfold index. case_decide; [|done]. apply lookup_ge_None. lia. }
  destruct k; simpl.
  - unfold lru_eviction_index, bind, load_associativity. simpl.
    by apply load_order_no_row.
  - unfold lru_prefer_clean_eviction_index, bind at 1, load_associativity.
    simpl. unfold bind at 1.
    destruct (Z.to_nat _) as [|n]; cbn [find_clean_line].
    + unfold ret. by apply load_order_no_row.
    + unfold bind at 1. by rewrite load_order_no_row.
Qed.

Lemma eviction_index_set_out_of_range_witness :
  eviction_index LRU_PREFER_CLEAN scenario_cache 2 scenario_policy = None.
Proof.
  apply (eviction_index_set_out_of_range LRU_PREFER_CLEAN scenario_cache 2
           scenario_policy scenario_metadata).
  - reflexivity.
  - simpl. lia.
Defined.

(** X11, the result of RAND.  [rand_eviction_index] of
    src/replacement_policies.c divides by the associativity: with
    associativity 0 the call is undefined behaviour, whatever [rand()]
    returns; with a positive associativity it returns, for every value of
    [rand()], an index below the associativity, and leaves the policy as it
    is. *)
Theorem rand_eviction_index_result (w : Z) (cs : cache_system)
    (set_idx : Z) (rp : rand_policy) (md : rand_metadata) :
  data rp = Some md ->
  (rand_associativity md = 0 ->
     rand_eviction_index w cs set_idx rp = None) /\
  (0 < rand_associativity md ->
     exists r, rand_eviction_index w cs set_idx rp = Some (r, rp) /\
       0 <= r < rand_associativity md).
Proof.
  intros Hmd. unfold rand_eviction_index. rewrite Hmd. split.
  - intros ->. by rewrite decide_True.
  - intros Ha. rewrite decide_False by lia. eexists. split; [reflexivity|].
    by apply Z.mod_pos_bound.
Qed.

Lemma rand_eviction_index_result_witness :
  (rand_associativity (mk_rand_metadata 4 0) = 0 ->
     rand_eviction_index 12345 scenario_cache 1
       (mk_replacement_policy (Some (mk_rand_metadata 4 0))) = None) /\
  (exists r, rand_eviction_index 12345 scenario_cache 1
               (mk_replacement_policy (Some (mk_rand_metadata 2 4)))
             = Some (r, mk_replacement_policy (Some (mk_rand_metadata 2 4))) /\
             0 <= r < 4).
Proof.
  split.
  - apply (rand_eviction_index_result 12345 scenario_cache 1
             (mk_replacement_policy (Some (mk_rand_metadata 4 0)))
             (mk_rand_metadata 4 0)). reflexivity.
  - apply (rand_eviction_index_result 12345 scenario_cache 1
             (mk_replacement_policy (Some (mk_rand_metadata 2 4)))
             (mk_rand_metadata 2 4)); [reflexivity|simpl; lia].
Defined.


(* ===================================================================== *)
(** ** The sets are independent *)
(* ===================================================================== *)

Lemma load_order_same_row (s i : Z) (md1 md2 : lru_metadata) :
  index (order md1) s = index (order md2) s ->
  fst <$> load_order s i (mk_replacement_policy (Some md1))
  = fst <$> load_order s i (mk_replacement_policy (Some md2)).
Proof.
  intros Hrow. unfold load_order. simpl. rewrite Hrow.
  destruct (index (order md2) s) as [row|]; [|done].
  by destruct (index row i).
Qed.

Lemma find_clean_line_same_row (cs : cache_system) (s a : Z)
    (md1 md2 : lru_metadata) (n : nat) :
  index (order md1) s = index (order md2) s ->
  forall i,
    fst <$> find_clean_line cs s a i n (mk_replacement_policy (Some md1))
    = fst <$> find_clean_line cs s a i n (mk_replacement_policy (Some md2)).
Proof.
  intros Hrow. induction n as [|n IH]; intros i; [done|].
  cbn [find_clean_line]. unfold bind at 1 3, load_order. simpl.
  rewrite Hrow. destruct (index (order md2) s) as [row|]; [|done].
  destruct (index row i) as [x|]; [|done].
  unfold bind at 1 2, lift.
  destruct (index (cache_lines cs) _) as [cl|]; [|done].
  case_decide; [done|]. apply IH.
Qed.

(** The result of the eviction functions depends on the policy through its
    associativity and the order of the set only. *)
Lemma eviction_index_same_row (k : recency_kind) (cs : cache_system)
    (s : Z) (md1 md2 : lru_metadata) :
  associativity md1 = associativity md2 ->
  index (order md1) s = index (order md2) s ->
  fst <$> eviction_index k cs s (mk_replacement_policy (Some md1))
  = fst <$> eviction_index k cs s (mk_replacement_policy (Some md2)).
Proof.
  intros Ha Hrow. destruct k; simpl.
  - unfold lru_eviction_index, bind, load_associativity. simpl. rewrite Ha.
    by apply load_order_same_row.
  - unfold lru_prefer_clean_eviction_index, bind at 1 3, load_associativity.
    simpl. rewrite Ha. unfold bind at 1 2.
    pose proof (find_clean_line_same_row cs s (associativity md2) md1 md2
      (Z.to_nat (int_of_uint32 (uint32 (associativity md2 - 1)) + 1)) Hrow
      (int_of_uint32 (uint32 (associativity md2 - 1)))) as Hfind.
    destruct (find_clean_line _ _ _ _ _ (mk_replacement_policy (Some md1)))
      as [[res1 rp1]|] eqn:H1;
      destruct (find_clean_line _ _ _ _ _ (mk_replacement_policy (Some md2)))
      as [[res2 rp2]|] eqn:H2; simpl in Hfind; try done.
    injection Hfind as ->.
    apply find_clean_line_pure in H1 as ->.
    apply find_clean_line_pure in H2 as ->.
    destruct res2; [done|]. by apply load_order_same_row.
Qed.

(** X12, the sets are independent.  An access to one set of a policy of
    either kind does not change what the eviction function of that kind
    returns for any other set, on any cache. *)
Theorem cache_access_keeps_other_victims (k : recency_kind)
    (cs cs' : cache_system) (set_idx t other : Z) (rp rp' : lru_policy)
    (u : unit) :
  (forall md, data rp = Some md -> associativity md <= UINT32_MODULUS) ->
  cache_access k cs set_idx t rp = Some (u, rp') ->
  other <> set_idx ->
  fst <$> eviction_index k cs' other rp'
  = fst <$> eviction_index k cs' other rp.
Proof.
  intros Hrange Hrun Hne. rewrite cache_access_unfold in Hrun.
  apply lru_cache_access_cases in Hrun
    as [->|(md & row & p & x & Hmd & Hs & Hrow & Hp & ->)]; [done| |done].
  rewrite (policy_eta rp md Hmd).
  apply eviction_index_same_row; [done|]. simpl.
  unfold index. case_decide; [|done].
  apply list_lookup_insert_ne. lia.
Qed.

Lemma cache_access_keeps_other_victims_witness :
  fst <$> eviction_index LRU_PREFER_CLEAN scenario_cache 1
            (mk_replacement_policy (Some
               (mk_lru_metadata 2 4 [ [2; 3; 1; 0]; [0; 1; 2; 3] ])))
  = fst <$> eviction_index LRU_PREFER_CLEAN scenario_cache 1 scenario_policy.
Proof.
  apply (cache_access_keeps_other_victims LRU_PREFER_CLEAN scenario_cache
           scenario_cache 0 12 1 scenario_policy _ tt).
  - intros md [= <-]. unfold UINT32_MODULUS. simpl. lia.
  - vm_compute. reflexivity.
  - lia.
Defined.

(* ===================================================================== *)
(** ** RAND: the associativities that divide the range of [rand()] *)
(* ===================================================================== *)

(** X13, the distribution of [rand() % assoc].  For [rand()] between 0 and
    [rand_max] and a positive associativity [k], the number of values of
    [rand()] on which [rand_eviction_index] returns [j] is the quotient of
    [rand_max + 1] by [k], plus one when [j] is below the remainder. *)
Theorem rand_eviction_index_distribution (rand_max sets k j : Z) :
  0 <= rand_max < UINT32_MODULUS -> 0 < k -> 0 <= j < k ->
  Z.of_nat (rand_draws_returning rand_max
              (mk_replacement_policy (Some (mk_rand_metadata sets k))) j)
  = (rand_max + 1) / k
    + (if decide (j < (rand_max + 1) mod k) then 1 else 0).
Proof. apply rand_draws_returning_count. Qed.

Lemma rand_eviction_index_distribution_witness :
  Z.of_nat (rand_draws_returning 15
              (mk_replacement_policy (Some (mk_rand_metadata 16 6))) 1)
  = (15 + 1) / 6 + (if decide (1 < (15 + 1) mod 6) then 1 else 0).
Proof.
  apply (rand_eviction_index_distribution 15 16 6 1).
  - unfold UINT32_MODULUS. lia.
  - lia.
  - lia.
Defined.

(** X14, no bias for the associativities that divide the range.  When the
    associativity divides [rand_max + 1], as every power of two up to
    [rand_max + 1] does when that number is a power of two, every index is
    returned for the same number of values of [rand()]. *)
Theorem rand_eviction_index_uniform_when_divides (rand_max sets k j j' : Z) :
  0 <= rand_max < UINT32_MODULUS -> 0 < k ->
  (rand_max + 1) mod k = 0 ->
  0 <= j < k -> 0 <= j' < k ->
  rand_draws_returning rand_max
    (mk_replacement_policy (Some (mk_rand_metadata sets k))) j
  = rand_draws_returning rand_max
      (mk_replacement_policy (Some (mk_rand_metadata sets k))) j'.
Proof.
  intros Hmax Hk Hdiv Hj Hj'. apply Nat2Z.inj.
  rewrite !rand_draws_returning_count by done.
  rewrite Hdiv. by rewrite !decide_False by lia.
Qed.

Lemma rand_eviction_index_uniform_when_divides_witness :
  rand_draws_returning 15
    (mk_replacement_policy (Some (mk_rand_metadata 64 8))) 0
  = rand_draws_returning 15
      (mk_replacement_policy (Some (mk_rand_metadata 64 8))) 7.
Proof.
  apply (rand_eviction_index_uniform_when_divides 15 64 8 0 7).
  - unfold UINT32_MODULUS. lia.
  - lia.
  - reflexivity.
  - lia.
  - lia.
Defined.

(* ===================================================================== *)
(** ** The life of a RAND policy *)
(* ===================================================================== *)

Lemma rand_access_sequence_run (calls : list (cache_system * Z * Z))
    (rp : rand_policy) :
  rand_access_sequence calls rp = Some (tt, rp).
Proof.
  induction calls as [|[[cs s] t] calls IH]; [done|].
  cbn [rand_access_sequence]. unfold bind, rand_cache_access, ret. exact IH.
Qed.

(** X15, RAND keeps no history.  A RAND policy is built for a positive
    associativity [a]; after any calls of [rand_cache_access], on any
    caches, sets and tags, [rand_eviction_index] returns the remainder of
    the value of [rand()] by [a], as it does right after the
    construction, and the policy is the one the constructor returned. *)
Theorem rand_policy_keeps_no_history (sets a w : Z)
    (calls : list (cache_system * Z * Z)) (cs : cache_system)
    (set_idx : Z) (rp : rand_policy) :
  rand_replacement_policy_new true true sets a = Some rp ->
  0 < a ->
  0 <= w < UINT32_MODULUS ->
  (rand_access_sequence calls;; rand_eviction_index w cs set_idx) rp
  = Some (w mod a, rp) /\
  rand_eviction_index w cs set_idx rp = Some (w mod a, rp).
Proof.
  intros [= <-] Ha Hw.
  assert (rand_eviction_index w cs set_idx
            (mk_replacement_policy (Some (mk_rand_metadata sets a)))
          = Some (w mod a,
                  mk_replacement_policy (Some (mk_rand_metadata sets a))))
    as Hrun.
  { rewrite rand_eviction_index_value by lia.
    by rewrite uint32_of_int_small. }
  split; [|done]. unfold bind. by rewrite rand_access_sequence_run.
Qed.

Lemma rand_policy_keeps_no_history_witness :
  (rand_access_sequence [(scenario_cache, 0, 12); (scenario_cache, 1, 20)];;
   rand_eviction_index 12345 scenario_cache 1)
    (mk_replacement_policy (Some (mk_rand_metadata 2 4)))
  = Some (12345 mod 4, mk_replacement_policy (Some (mk_rand_metadata 2 4))) /\
  rand_eviction_index 12345 scenario_cache 1
    (mk_replacement_policy (Some (mk_rand_metadata 2 4)))
  = Some (12345 mod 4, mk_replacement_policy (Some (mk_rand_metadata 2 4))).
Proof.
  apply (rand_policy_keeps_no_history 2 4 12345).
  - reflexivity.
  - lia.
  - unfold UINT32_MODULUS. lia.
Defined.

(** X16, the cleanup of RAND frees at most once.  On every argument, a null
    pointer, a released policy or a live one,
    [rand_replacement_policy_cleanup] returns; it frees the metadata when
    there is one and nothing otherwise; it leaves [data] cleared; and a
    second call frees nothing. *)
Theorem rand_cleanup_frees_once (rp : option rand_policy) :
  exists freed after,
    rand_replacement_policy_cleanup rp = Some (freed, after) /\
    (freed = [Metadata] <-> exists p md, rp = Some p /\ data p = Some md) /\
    (freed = [] \/ freed = [Metadata]) /\
    (forall p, after = Some p -> data p = None) /\
    rand_replacement_policy_cleanup after = Some ([], after).
Proof.
  destruct rp as [[[md|]]|]; simpl; do 2 eexists;
    (split; [reflexivity|]); (split; [|split; [|split]]);
    try reflexivity; try (by left); try (by right);
    try (by intros p [= <-]).
  - split; [intros _; by exists (mk_replacement_policy (Some md)), md|done].
  - split; [discriminate|]. by intros (p & md & [= <-] & Hmd).
  - split; [discriminate|]. by intros (p & md & Hp & _).
Qed.
